(** * extrair_itens_docx: extraction and consolidation of (code, quantity) rows

    A shallow embedding of [src/extrair_itens_docx.py] and the proofs of its
    specification.

    Text.  A Python [str] is modelled as a list of characters whose code
    points lie below 256 (the Latin-1 range, which contains the no-break
    space U+00A0 the program handles).  On that range the character classes
    of the interpreter are finite tables, written out below:
    - [str.isspace], [str.strip] and the regular expression class [\s];
    - the class [\d] (decimal digits) and [str.isdigit] (which also holds
      for the superscripts one, two and three);
    - [str.lower] stays in the range, [str.upper] leaves it for three
      characters and is therefore given on code points.

    Numbers.  A Python [float] is an IEEE 754 binary64 value, modelled by
    [spec_float] with precision 53 and maximal exponent 1024; decimal
    conversion in both directions is correctly rounded, ties to even.

    Errors.  A raised exception is a value [Raise e] of the result type.

    Regular expressions.  The patterns are run by a model of the
    backtracking matcher of [re]: leftmost start, alternatives in order,
    greedy repetitions.

    The file has three parts: the program, the vocabulary of the
    specification, and the lemmas and theorems. *)

From Stdlib Require Import Floats.PrimFloat Floats.FloatOps Floats.SpecFloat.
From Stdlib Require Import List Ascii ZArith NArith PeanoNat Lia Bool.
From Stdlib Require Import Permutation Sorted.
From Stdlib Require String DecimalString DecimalPos DecimalN.
Import ListNotations.

Set Warnings "-inexact-float".

(* ===================================================================== *)
(** * Text *)
(* ===================================================================== *)

Definition str := list ascii.

Inductive str_literal := lit_nil | lit_cons (a : ascii) (l : str_literal).

Fixpoint literal_of_bytes (l : list Byte.byte) : str_literal :=
  match l with
  | [] => lit_nil
  | b :: l' => lit_cons (ascii_of_byte b) (literal_of_bytes l')
  end.

Fixpoint bytes_of_literal (l : str_literal) : list Byte.byte :=
  match l with
  | lit_nil => []
  | lit_cons a l' => byte_of_ascii a :: bytes_of_literal l'
  end.

Declare Scope str_scope.
Delimit Scope str_scope with str.
Bind Scope str_scope with str.
#[warnings="-via-type-remapping,-via-type-mismatch"]
String Notation str literal_of_bytes bytes_of_literal
  (via str_literal mapping [[nil] => lit_nil, [cons] => lit_cons]) : str_scope.
Open Scope str_scope.

Definition code_point (c : ascii) : N := N_of_ascii c.

Definition in_range (lo hi : N) (c : ascii) : bool :=
  ((lo <=? code_point c) && (code_point c <=? hi))%N.

Definition is_cp (n : N) (c : ascii) : bool := (code_point c =? n)%N.

(** [Py_UNICODE_ISSPACE] below 256: TAB..CR, FS..US, space, NEL, NBSP. *)
Definition isspace (c : ascii) : bool :=
  in_range 9 13 c || in_range 28 32 c || is_cp 133 c || is_cp 160 c.

(** [Py_UNICODE_ISDECIMAL] below 256, the class [\d]. *)
Definition isdecimal (c : ascii) : bool := in_range 48 57 c.

(** [Py_UNICODE_ISDIGIT] below 256: the decimals and superscripts 2, 3, 1. *)
Definition isdigit_char (c : ascii) : bool :=
  isdecimal c || is_cp 178 c || is_cp 179 c || is_cp 185 c.

(** [str.isdigit]: non-empty and every character is a digit. *)
Definition isdigit (s : str) : bool :=
  match s with
  | [] => false
  | _ => forallb isdigit_char s
  end.

(** [str.lower], one character. *)
Definition lower_char (c : ascii) : ascii :=
  if in_range 65 90 c
     || (in_range 192 222 c && negb (is_cp 215 c))
  then ascii_of_N (code_point c + 32)
  else c.

Definition lower (s : str) : str := map lower_char s.

(** [str.upper], one character, as code points: sharp s becomes two
    letters, y-diaeresis and micro leave the Latin-1 range. *)
Definition upper_char (c : ascii) : list N :=
  if in_range 97 122 c
     || (in_range 224 254 c && negb (is_cp 247 c))
  then [(code_point c - 32)%N]
  else if is_cp 223 c then [83%N; 83%N]
  else if is_cp 255 c then [376%N]
  else if is_cp 181 c then [924%N]
  else [code_point c].

Definition upper (s : str) : list N := flat_map upper_char s.

Definition code_points (s : str) : list N := map code_point s.

Fixpoint list_eqb {A} (eqb : A -> A -> bool) (l1 l2 : list A) : bool :=
  match l1, l2 with
  | [], [] => true
  | x :: l1', y :: l2' => eqb x y && list_eqb eqb l1' l2'
  | _, _ => false
  end.

Definition str_eqb (a b : str) : bool := list_eqb Ascii.eqb a b.

(** [s.upper() == lit] for a literal [lit]. *)
Definition upper_eqb (s lit : str) : bool :=
  list_eqb N.eqb (upper s) (code_points lit).

(** [s.lower() == lit]. *)
Definition lower_eqb (s lit : str) : bool := str_eqb (lower s) lit.

Fixpoint lstrip (s : str) : str :=
  match s with
  | c :: s' => if isspace c then lstrip s' else s
  | [] => []
  end.

Definition rstrip (s : str) : str := rev (lstrip (rev s)).

(** [str.strip()] with no argument. *)
Definition strip (s : str) : str := rstrip (lstrip s).

Fixpoint prefixb (p s : str) : bool :=
  match p, s with
  | [], _ => true
  | a :: p', b :: s' => Ascii.eqb a b && prefixb p' s'
  | _ :: _, [] => false
  end.

(** [str.replace(old, new)] for a non-empty [old]: occurrences are taken
    left to right and do not overlap; [skip] counts the characters of the
    occurrence just replaced that are still to be dropped. *)
Fixpoint replace_from (old new : str) (skip : nat) (s : str) : str :=
  match s with
  | [] => []
  | c :: s' =>
      match skip with
      | S k => replace_from old new k s'
      | O =>
          if prefixb old s
          then new ++ replace_from old new (length old - 1) s'
          else c :: replace_from old new 0 s'
      end
  end.

Definition replace (old new s : str) : str :=
  match old with
  | [] => new ++ flat_map (fun c => c :: new) s
  | _ => replace_from old new 0 s
  end.

(** [sep.join(l)]. *)
Fixpoint join (sep : str) (l : list str) : str :=
  match l with
  | [] => []
  | [x] => x
  | x :: l' => x ++ sep ++ join sep l'
  end.

Definition NBSP : ascii := ascii_of_N 160.

(** [norm]: [(s or "").replace("\xa0", " ").strip()]. *)
Definition norm (s : str) : str := strip (replace [NBSP] " " s).

(* ===================================================================== *)
(** * Results and exceptions *)
(* ===================================================================== *)

Inductive exn := ValueError.

Inductive res (A : Type) :=
| Ok (a : A)
| Raise (e : exn).
Arguments Ok {A} a.
Arguments Raise {A} e.

Definition bind {A B} (m : res A) (f : A -> res B) : res B :=
  match m with
  | Ok a => f a
  | Raise e => Raise e
  end.

Notation "x <- m ;; k" := (bind m (fun x => k))
  (at level 61, m at next level, right associativity).

(** [try: body except ValueError: handler]. *)
Definition try_except {A} (body : res A) (handler : A) : res A :=
  match body with
  | Ok a => Ok a
  | Raise ValueError => Ok handler
  end.

Fixpoint mapM {A B} (f : A -> res B) (l : list A) : res (list B) :=
  match l with
  | [] => Ok []
  | x :: l' => y <- f x ;; ys <- mapM f l' ;; Ok (y :: ys)
  end.

(* ===================================================================== *)
(** * Regular expressions: the backtracking matcher of [re] *)
(* ===================================================================== *)

(** The fragment of the pattern language the program uses.  Bounded and
    unbounded repetitions are greedy; [Alt] tries its left branch first. *)
Inductive regex :=
| Eps
| Bol                         (* ^ *)
| Eol                         (* $ : at the end, or before a final newline *)
| Cls (p : ascii -> bool)     (* a character class *)
| Seq (r1 r2 : regex)
| Alt (r1 r2 : regex)
| Star (r : regex).

Definition Chr (c : ascii) : regex := Cls (Ascii.eqb c).
Definition Plus (r : regex) : regex := Seq r (Star r).
Definition Opt (r : regex) : regex := Alt r Eps.

(** [r{n}] *)
Fixpoint Times (n : nat) (r : regex) : regex :=
  match n with
  | O => Eps
  | S n' => Seq r (Times n' r)
  end.

(** [r{0,n}], greedy *)
Fixpoint UpTo (n : nat) (r : regex) : regex :=
  match n with
  | O => Eps
  | S n' => Opt (Seq r (UpTo n' r))
  end.

(** [r{lo,hi}], greedy *)
Definition Range (lo hi : nat) (r : regex) : regex :=
  Seq (Times lo r) (UpTo (hi - lo) r).

Definition at_end (s : str) : bool :=
  match s with
  | [] => true
  | [c] => Ascii.eqb c (ascii_of_N 10)
  | _ => false
  end.

Section Matcher.
Variable A : Type.

(** A continuation receives the position reached and the text left. *)
Definition cont := nat -> str -> option A.

(** Greedy iteration: one more round of [body] is tried first, and the
    continuation only when that fails.  A round that consumes nothing is
    cut; [n] bounds the rounds by the length of the text. *)
Fixpoint star_loop (body : cont -> cont) (k : cont) (n : nat) : cont :=
  fun i s =>
    match n with
    | O => k i s
    | S n' =>
        match body (fun i' s' =>
                      if length s' <? length s
                      then star_loop body k n' i' s'
                      else None) i s with
        | Some a => Some a
        | None => k i s
        end
    end.

Fixpoint run (r : regex) (k : cont) {struct r} : cont :=
  fun i s =>
    match r with
    | Eps => k i s
    | Bol => if i =? 0 then k i s else None
    | Eol => if at_end s then k i s else None
    | Cls p =>
        match s with
        | c :: s' => if p c then k (S i) s' else None
        | [] => None
        end
    | Seq r1 r2 => run r1 (run r2 k) i s
    | Alt r1 r2 =>
        match run r1 k i s with
        | Some a => Some a
        | None => run r2 k i s
        end
    | Star r1 => star_loop (run r1) k (length s) i s
    end.
End Matcher.

Arguments star_loop {A} body k n.
Arguments run {A} r k.

(** The end position of the match is what the match object records. *)
Definition accept : cont nat := fun j _ => Some j.

(** [pattern.match(s)]: the match must start at position 0. *)
Definition re_match (r : regex) (s : str) : option (nat * nat) :=
  match run r accept 0 s with
  | Some j => Some (0, j)
  | None => None
  end.

(** [re.search(pattern, s)]: start positions are tried left to right. *)
Fixpoint search_from (r : regex) (i : nat) (s : str) : option (nat * nat) :=
  match run r accept i s with
  | Some j => Some (i, j)
  | None =>
      match s with
      | [] => None
      | _ :: s' => search_from r (S i) s'
      end
  end.

Definition re_search (r : regex) (s : str) : option (nat * nat) :=
  search_from r 0 s.

(** [m.group(0)] for a match [(i, j)] in [s]: the slice [s[i:j]]. *)
Definition group (s : str) (m : nat * nat) : str :=
  firstn (snd m - fst m) (skipn (fst m) s).

(** The classes [\d] and [\s]. *)
Definition re_d : regex := Cls isdecimal.
Definition re_s : regex := Cls isspace.

(** [CODE_RE = re.compile(r"^\s*\d+(?:\.\d+)?\s*$")] *)
Definition CODE_RE : regex :=
  Seq Bol
    (Seq (Star re_s)
       (Seq (Plus re_d)
          (Seq (Opt (Seq (Chr ".") (Plus re_d)))
             (Seq (Star re_s) Eol)))).

(** The three alternatives of the pattern of [pick_quantity_from_row]. *)
Definition QTY_GROUPED : regex :=
  Seq (Range 1 3 re_d)
    (Seq (Star (Seq (Chr ".") (Times 3 re_d)))
       (Seq (Chr ",") (Plus re_d))).
Definition QTY_DECIMAL : regex := Seq (Plus re_d) (Seq (Chr ",") (Plus re_d)).
Definition QTY_INTEGER : regex := Plus re_d.

(** [r"(\d{1,3}(?:\.\d{3})*,\d+|\d+,\d+|\d+)"]; its only group is the whole
    pattern, so [m.group(1)] is the whole match. *)
Definition QTY_RE : regex := Alt QTY_GROUPED (Alt QTY_DECIMAL QTY_INTEGER).

(** [CODE_RE.match(code)] as a truth value. *)
Definition code_re_matches (code : str) : bool :=
  match re_match CODE_RE code with
  | Some _ => true
  | None => false
  end.

(* ===================================================================== *)
(** * Row extraction *)
(* ===================================================================== *)

Definition is_empty (s : str) : bool :=
  match s with
  | [] => true
  | _ => false
  end.

(** A table is its rows, a row its cells, a cell its text. *)
Definition row := list str.
Definition table := list row.
Definition document := list table.

(** [is_itens_table] *)
Definition is_itens_table (t : table) : bool :=
  match t with
  | [] => false
  | first_row :: _ =>
      let first_row_texts := map norm first_row in
      existsb (fun t => lower_eqb t "itens") first_row_texts
  end.

(** [pick_quantity_from_row] *)
Definition pick_quantity_from_row (cells_text : list str) : str :=
  let fallback :=
    let joined := join " " cells_text in
    match re_search QTY_RE joined with
    | Some m => group joined m
    | None => ""
    end in
  if 3 <=? length cells_text then
    let q := norm (nth 2 cells_text "") in
    if negb (is_empty q) && negb (upper_eqb q "#N/D") then q else fallback
  else fallback.

(** An entry of the log: table index, row index, reason, value. *)
Definition skip_record : Type := nat * nat * str * str.

Definition reason (r : skip_record) : str := snd (fst r).

(** The local variables of [extract_code_qty]. *)
Record state := {
  results : list (str * str);
  logs : list skip_record;
  itens_tables : nat
}.

Definition log_skip (st : state) (r : skip_record) : state :=
  {| results := results st;
     logs := logs st ++ [r];
     itens_tables := itens_tables st |}.

Definition emit (st : state) (r : str * str) : state :=
  {| results := results st ++ [r];
     logs := logs st;
     itens_tables := itens_tables st |}.

(** The body of the inner loop, for row [r_i] of table [t_i]. *)
Definition extract_row (t_i r_i : nat) (r : row) (st : state) : state :=
  let cells := map norm r in
  match cells with
  | [] => log_skip st (t_i, r_i, "skip_empty_row", "")
  | cell0 :: _ =>
      let code := norm cell0 in
      if is_empty code || upper_eqb code "#N/D" then
        log_skip st (t_i, r_i, "skip_code_empty_or_ND", "")
      else if negb (code_re_matches code) then
        log_skip st (t_i, r_i, "skip_code_invalid", code)
      else
        let qty := pick_quantity_from_row cells in
        if is_empty qty || upper_eqb qty "#N/D" then
          log_skip st (t_i, r_i, "skip_qty_empty_or_ND", code)
        else
          emit st (strip code, strip qty)
  end.

(** [for r_i, row in enumerate(rows, start=r_i)] *)
Fixpoint extract_rows (t_i r_i : nat) (rows : list row) (st : state) : state :=
  match rows with
  | [] => st
  | r :: rows' => extract_rows t_i (S r_i) rows' (extract_row t_i r_i r st)
  end.

(** The body of the outer loop: the header row is skipped. *)
Definition extract_table (t_i : nat) (t : table) (st : state) : state :=
  if negb (is_itens_table t) then st
  else
    let st1 := {| results := results st;
                  logs := logs st;
                  itens_tables := itens_tables st + 1 |} in
    extract_rows t_i 2 (tl t) st1.

(** [for t_i, table in enumerate(doc.tables, start=t_i)] *)
Fixpoint extract_tables (t_i : nat) (ts : list table) (st : state) : state :=
  match ts with
  | [] => st
  | t :: ts' => extract_tables (S t_i) ts' (extract_table t_i t st)
  end.

Record meta := {
  tables_total : nat;
  meta_itens_tables : nat;
  rows_extracted : nat;
  rows_ignored : nat;
  ignored_details : list skip_record
}.

(** [extract_code_qty], given the tables of the opened document. *)
Definition extract_code_qty (doc : document) : list (str * str) * meta :=
  let st := extract_tables 1 doc
              {| results := []; logs := []; itens_tables := 0 |} in
  (results st,
   {| tables_total := length doc;
      meta_itens_tables := itens_tables st;
      rows_extracted := length (results st);
      rows_ignored := length (logs st);
      ignored_details := logs st |}).

(* ===================================================================== *)
(** * Floating-point numbers *)
(* ===================================================================== *)

Open Scope Z_scope.

Definition float := spec_float.
Definition f64_zero : float := S754_zero false.
Definition f64_add : float -> float -> float := SFadd 53 1024.

(** The binary64 value nearest to [(-1)^neg * m * 10^e], ties to even:
    what [strtod] returns for the digits [m] and the decimal exponent [e]. *)
Definition f64_of_decimal (neg : bool) (m : Z) (e : Z) : float :=
  match m with
  | Zpos p =>
      if 0 <=? e
      then binary_round 53 1024 neg (p * Z.to_pos (10 ^ e)) 0
      else
        let '(q, e2, l) := SFdiv_core_binary 53 1024 m 0 (10 ^ (- e)) 0 in
        binary_round_aux 53 1024 neg q e2 l
  | _ => S754_zero neg
  end.

Definition digit_value (c : ascii) : Z := Z.of_N (code_point c) - 48.

(** The number written by a run of decimal digits. *)
Definition digits_value (s : str) : Z :=
  fold_left (fun acc c => 10 * acc + digit_value c) s 0.

Fixpoint span (p : ascii -> bool) (s : str) : str * str :=
  match s with
  | c :: s' =>
      if p c then let '(a, b) := span p s' in (c :: a, b) else ([], s)
  | [] => ([], [])
  end.

Definition parse_sign (s : str) : bool * str :=
  match s with
  | c :: s' =>
      if Ascii.eqb c "-" then (true, s')
      else if Ascii.eqb c "+" then (false, s')
      else (false, s)
  | [] => (false, s)
  end.

(** The exponent part: consumed only when it has at least one digit. *)
Definition parse_exponent (s : str) : Z * str :=
  match s with
  | c :: s1 =>
      if Ascii.eqb c "e" || Ascii.eqb c "E" then
        let '(esign, s2) := parse_sign s1 in
        let '(ds, s3) := span isdecimal s2 in
        if is_empty ds then (0, s)
        else ((if esign then - digits_value ds else digits_value ds), s3)
      else (0, s)
  | [] => (0, s)
  end.

(** [_Py_dg_strtod]: the value and the text left, [None] when no number
    starts the text (no digit in the mantissa).  Overflow gives an
    infinity and underflow a zero or a subnormal number, as [float] asks
    for no overflow error. *)
Definition strtod (s : str) : option (float * str) :=
  let '(neg, s1) := parse_sign s in
  let '(ip, s2) := span isdecimal s1 in
  let '(fp, s3) :=
    match s2 with
    | c :: s2' => if Ascii.eqb c "." then span isdecimal s2' else ([], s2)
    | [] => ([], s2)
    end in
  if is_empty ip && is_empty fp then None
  else
    let '(e, s4) := parse_exponent s3 in
    Some (f64_of_decimal neg (digits_value (ip ++ fp))
            (e - Z.of_nat (length fp)),
          s4).

(** Comparison of a prefix with a lower-case word, ignoring ASCII case. *)
Fixpoint case_insensitive_match (s word : str) : option str :=
  match word with
  | [] => Some s
  | w :: word' =>
      match s with
      | c :: s' =>
          if Ascii.eqb c w || (code_point c + 32 =? code_point w)%N
          then case_insensitive_match s' word'
          else None
      | [] => None
      end
  end.

(** [_Py_parse_inf_or_nan] *)
Definition parse_inf_or_nan (s : str) : option (float * str) :=
  let '(neg, s1) := parse_sign s in
  match case_insensitive_match s1 "inf" with
  | Some s2 =>
      match case_insensitive_match s2 "inity" with
      | Some s3 => Some (S754_infinity neg, s3)
      | None => Some (S754_infinity neg, s2)
      end
  | None =>
      match case_insensitive_match s1 "nan" with
      | Some s2 => Some (S754_nan, s2)
      | None => None
      end
  end.

(** [Py_ISSPACE]: the ASCII white space. *)
Definition c_isspace (c : ascii) : bool := in_range 9 13 c || is_cp 32 c.

Fixpoint drop_while (p : ascii -> bool) (s : str) : str :=
  match s with
  | c :: s' => if p c then drop_while p s' else s
  | [] => []
  end.

(** [float_from_string_inner]: surrounding ASCII white space is dropped and
    the whole of what remains must be a number. *)
Definition float_from_string_inner (s : str) : res float :=
  let s1 := drop_while c_isspace s in
  if is_empty s1 then Raise ValueError
  else
    let s2 := rev (drop_while c_isspace (rev s1)) in
    let parsed :=
      match strtod s2 with
      | Some r => Some r
      | None => parse_inf_or_nan s2
      end in
    match parsed with
    | Some (x, []) => Ok x
    | _ => Raise ValueError
    end.

(** [_PyUnicode_TransformDecimalAndSpaceToASCII]: an ASCII string is kept;
    otherwise white space becomes a space and the first other character
    from 127 on (none is a decimal digit below 256) ends the text with a
    question mark. *)
Fixpoint transform_to_ascii (s : str) : str :=
  match s with
  | [] => []
  | c :: s' =>
      if (code_point c <? 127)%N then c :: transform_to_ascii s'
      else if isspace c then " "%char :: transform_to_ascii s'
      else ["?"%char]
  end.

Definition decimal_and_space_to_ascii (s : str) : str :=
  if forallb (fun c => (code_point c <? 128)%N) s then s
  else transform_to_ascii s.

(** The underscores of [_Py_string_to_number_with_underscores]: allowed
    only between two digits; a NUL ends the scan with an error. *)
Fixpoint remove_underscores (prev : ascii) (s : str) : option str :=
  match s with
  | [] => if Ascii.eqb prev "_" then None else Some []
  | c :: s' =>
      if is_cp 0 c then None
      else if Ascii.eqb c "_" then
        if in_range 48 57 prev then remove_underscores c s' else None
      else if Ascii.eqb prev "_" && negb (in_range 48 57 c) then None
      else option_map (cons c) (remove_underscores c s')
  end.

(** [float(s)] for a string [s]. *)
Definition py_float (s : str) : res float :=
  let a := decimal_and_space_to_ascii s in
  if existsb (Ascii.eqb "_") a then
    match remove_underscores Ascii.zero a with
    | Some b => float_from_string_inner b
    | None => Raise ValueError
    end
  else float_from_string_inner a.

(** [parse_pt_br_float] *)
Definition parse_pt_br_float (s : str) : res float :=
  try_except
    (let clean := replace "," "." (replace "." "" s) in
     py_float clean)
    f64_zero.

(** ** Formatting *)

Definition decimal_digits (n : Z) : str :=
  String.list_ascii_of_string
    (DecimalString.NilZero.string_of_uint (N.to_uint (Z.to_N n))).

(** [num / den] rounded to the nearest integer, ties to even. *)
Definition round_half_even (num den : Z) : Z :=
  let q := num / den in
  match (2 * (num mod den) ?= den) with
  | Lt => q
  | Gt => q + 1
  | Eq => if Z.even q then q else q + 1
  end.

(** [m * 2^e] in hundredths, correctly rounded. *)
Definition hundredths (m : positive) (e : Z) : Z :=
  if 0 <=? e then Zpos m * 2 ^ e * 100
  else round_half_even (Zpos m * 100) (2 ^ (- e)).

(** The thousands separators, working on the reversed digits. *)
Fixpoint group3_rev (n : nat) (rs : str) : str :=
  match rs with
  | [] => []
  | c :: rs' =>
      match n with
      | 3%nat => ","%char :: c :: group3_rev 1 rs'
      | _ => c :: group3_rev (S n) rs'
      end
  end.

Definition group3 (digits : str) : str := rev (group3_rev 0 (rev digits)).

Definition two_digits (n : Z) : str :=
  if n <? 10 then "0" ++ decimal_digits n else decimal_digits n.

Definition sign_text (s : bool) : str := if s then "-" else "".

(** [f"{total:,.2f}"] *)
Definition format_comma_2f (x : float) : str :=
  match x with
  | S754_nan => "nan"
  | S754_infinity s => sign_text s ++ "inf"
  | S754_zero s => sign_text s ++ "0.00"
  | S754_finite s m e =>
      let n := hundredths m e in
      sign_text s ++ group3 (decimal_digits (n / 100)) ++ "."
        ++ two_digits (n mod 100)
  end.

(** The rendering of a total in [consolidate_rows]. *)
Definition format_pt_br (total : float) : str :=
  replace "TEMP" "."
    (replace "." "," (replace "," "TEMP" (format_comma_2f total))).

(* ===================================================================== *)
(** * Consolidation *)
(* ===================================================================== *)

(** [re.split(r'(\d+)', k)]: the text between the maximal runs of decimal
    digits, and the runs themselves, in order.  [acc] holds the current
    piece reversed and [in_run] tells whether it is a run of digits. *)
Fixpoint re_split_digits (in_run : bool) (acc : str) (s : str) : list str :=
  match s with
  | [] => if in_run then [rev acc; []] else [rev acc]
  | c :: s' =>
      if Bool.eqb (isdecimal c) in_run
      then re_split_digits in_run (c :: acc) s'
      else rev acc :: re_split_digits (isdecimal c) [c] s'
  end.

Inductive key_elem :=
| KInt (n : Z)
| KStr (s : str).

(** [int(c)] for a piece [c] with [c.isdigit()]: the superscript digits are
    digits but no decimals, and [int] rejects them.  (The bound that recent
    interpreters put on the number of digits [int] accepts is not
    modelled.) *)
Definition py_int (c : str) : res Z :=
  if forallb isdecimal c then Ok (digits_value c) else Raise ValueError.

(** [natural_key] *)
Definition natural_key (k : str) : res (list key_elem) :=
  mapM (fun c => if isdigit c then n <- py_int c ;; Ok (KInt n)
                 else Ok (KStr c))
       (re_split_digits false [] k).

(** [a < b] on sequences: decided by [<] at the first position where the
    two differ, a proper prefix being smaller. *)
Fixpoint lex_ltb {T} (eqb ltb : T -> T -> bool) (a b : list T) : bool :=
  match a, b with
  | _, [] => false
  | [], _ :: _ => true
  | x :: a', y :: b' => if eqb x y then lex_ltb eqb ltb a' b' else ltb x y
  end.

Definition char_ltb (x y : ascii) : bool := (code_point x <? code_point y)%N.

(** [a < b] on strings: by code points. *)
Definition str_ltb (a b : str) : bool := lex_ltb Ascii.eqb char_ltb a b.

Definition elem_eqb (x y : key_elem) : bool :=
  match x, y with
  | KInt a, KInt b => a =? b
  | KStr a, KStr b => str_eqb a b
  | _, _ => false
  end.

(** [x < y] on the elements of a key.  An integer is never compared with a
    string: the keys of [natural_key] alternate strings and integers
    (lemma [natural_key_alternates] below), so elements at equal positions
    have equal types.  The value on mixed arguments is only there to make
    the function total. *)
Definition elem_ltb (x y : key_elem) : bool :=
  match x, y with
  | KInt a, KInt b => a <? b
  | KStr a, KStr b => str_ltb a b
  | KInt _, KStr _ => true
  | KStr _, KInt _ => false
  end.

(** [a < b] on keys, which are lists. *)
Definition key_ltb (a b : list key_elem) : bool :=
  lex_ltb elem_eqb elem_ltb a b.

Section Sorting.
Variables K V : Type.
Variable ltb : K -> K -> bool.

(** [x] goes before the first element that is not smaller than it. *)
Fixpoint insert_by (x : K * V) (l : list (K * V)) : list (K * V) :=
  match l with
  | [] => [x]
  | y :: l' => if ltb (fst y) (fst x) then y :: insert_by x l'
               else x :: y :: l'
  end.

(** A stable sort of the values by their keys, using only [<]. *)
Fixpoint sort_by (l : list (K * V)) : list (K * V) :=
  match l with
  | [] => []
  | x :: l' => insert_by x (sort_by l')
  end.
End Sorting.

Arguments insert_by {K V} ltb x l.
Arguments sort_by {K V} ltb l.

(** [sorted(codes, key=natural_key)]: the keys are computed first. *)
Definition sorted_natural (codes : list str) : res (list str) :=
  keyed <- mapM (fun c => k <- natural_key c ;; Ok (k, c)) codes ;;
  Ok (map snd (sort_by key_ltb keyed)).

(** The dictionary [sums], in insertion order. *)
Definition dict := list (str * float).

(** [sums[code] += val] on a [defaultdict(float)]. *)
Fixpoint dict_add (sums : dict) (code : str) (val : float) : dict :=
  match sums with
  | [] => [(code, f64_add f64_zero val)]
  | (c, total) :: sums' =>
      if str_eqb c code then (c, f64_add total val) :: sums'
      else (c, total) :: dict_add sums' code val
  end.

(** [sums[code]] *)
Fixpoint dict_get (sums : dict) (code : str) : float :=
  match sums with
  | [] => f64_zero
  | (c, total) :: sums' => if str_eqb c code then total else dict_get sums' code
  end.

(** The first loop of [consolidate_rows]. *)
Fixpoint sum_rows (rows : list (str * str)) (sums : dict) : res dict :=
  match rows with
  | [] => Ok sums
  | (code, qty_str) :: rows' =>
      val <- parse_pt_br_float qty_str ;;
      sum_rows rows' (dict_add sums code val)
  end.

(** [consolidate_rows] *)
Definition consolidate_rows (rows : list (str * str))
  : res (list (str * str)) :=
  sums <- sum_rows rows [] ;;
  sorted_codes <- sorted_natural (map fst sums) ;;
  Ok (map (fun code => (code, format_pt_br (dict_get sums code)))
        sorted_codes).

(* ===================================================================== *)
(** * The vocabulary of the specification *)
(* ===================================================================== *)

Close Scope Z_scope.

(** ** Text and matches *)

Definition all_space (s : str) : Prop := Forall (fun c => isspace c = true) s.

(** [Match r i s i' s']: from position [i] with text [s] ahead, [r] can
    match up to position [i'], leaving [s'].  Every round of a [Star]
    consumes something. *)
Inductive Match : regex -> nat -> str -> nat -> str -> Prop :=
| M_eps i s : Match Eps i s i s
| M_bol s : Match Bol 0 s 0 s
| M_eol i s : at_end s = true -> Match Eol i s i s
| M_cls p c i s : p c = true -> Match (Cls p) i (c :: s) (S i) s
| M_seq r1 r2 i s i1 s1 i2 s2 :
    Match r1 i s i1 s1 -> Match r2 i1 s1 i2 s2 ->
    Match (Seq r1 r2) i s i2 s2
| M_alt_l r1 r2 i s i' s' : Match r1 i s i' s' -> Match (Alt r1 r2) i s i' s'
| M_alt_r r1 r2 i s i' s' : Match r2 i s i' s' -> Match (Alt r1 r2) i s i' s'
| M_star_stop r i s : Match (Star r) i s i s
| M_star_step r i s i1 s1 i2 s2 :
    Match r i s i1 s1 -> length s1 < length s ->
    Match (Star r) i1 s1 i2 s2 ->
    Match (Star r) i s i2 s2.

#[local] Hint Constructors Match : core.

Definition sound_for (A : Type) (r : regex) : Prop :=
  forall (k : cont A) i s a, run r k i s = Some a ->
    exists i' s', Match r i s i' s' /\ k i' s' = Some a.

Definition complete_for (A : Type) (r : regex) : Prop :=
  forall (k : cont A) i s i' s' a, Match r i s i' s' -> k i' s' = Some a ->
    exists a', run r k i s = Some a'.

(** A text made of characters of the class [p]. *)
Definition all_in (p : ascii -> bool) (w : str) : Prop :=
  Forall (fun c => p c = true) w.

Definition no_space_ends (t : str) : Prop :=
  (forall c t', t = c :: t' -> isspace c = false) /\
  (forall t' c, t = t' ++ [c] -> isspace c = false).

(** ** Codes, headers and tables *)

(** The grammar of the specification: [DIGITS ('.' DIGITS)?]. *)
Definition DIGITS (w : str) : Prop := w <> [] /\ all_in isdecimal w.

Definition code_grammar (w : str) : Prop :=
  exists a, DIGITS a /\ (w = a \/ exists b, DIGITS b /\ w = a ++ "." ++ b).

(** [x] is the lower-case ASCII letter [c] or its capital. *)
Definition same_letter (c x : ascii) : Prop :=
  x = c \/ (code_point x + 32 = code_point c)%N.

(** Equality with a lower-case word, letter case ignored. *)
Definition equals_ignoring_case (t word : str) : Prop :=
  Forall2 same_letter word t.

Definition not_target (t : table) : Prop := is_itens_table t = false.

Definition scenario_table : table :=
  [ ["Itens"; "Qtd"];
    ["17.1"; ""; "5,00"];
    ["17.1"; ""; "3,50"];
    ["#N/D"; ""; "1"] ].

(** The text handed to [float]: dots removed, then commas made dots. *)
Definition without_dots (s : str) : str :=
  filter (fun c => negb (Ascii.eqb "." c)) s.

Definition commas_to_dots (s : str) : str :=
  map (fun c => if Ascii.eqb "," c then "."%char else c) s.

(** ** The numeric shapes of a quantity *)

(** A text that does not start with a character of the class. *)
Definition not_starting (p : ascii -> bool) (s : str) : Prop :=
  forall c s', s = c :: s' -> p c = false.

(** A dot and three digits. *)
Definition triple (g : str) : Prop :=
  exists x y z,
    g = ["."%char; x; y; z] /\
    isdecimal x = true /\ isdecimal y = true /\ isdecimal z = true.

(** (a) thousands-grouped with decimal, as in [1.234,56] *)
Definition shape_grouped (w : str) : Prop :=
  exists h gs f,
    DIGITS h /\ length h <= 3 /\ Forall triple gs /\ DIGITS f /\
    w = h ++ concat gs ++ "," ++ f.

(** (b) decimal with a comma, as in [10,5] *)
Definition shape_decimal (w : str) : Prop :=
  exists a b, DIGITS a /\ DIGITS b /\ w = a ++ "," ++ b.

(** (c) plain integer digits *)
Definition shape_integer (w : str) : Prop := DIGITS w.

Inductive shape := Grouped | Decimal | Integer.

Definition has_shape (k : shape) (w : str) : Prop :=
  match k with
  | Grouped => shape_grouped w
  | Decimal => shape_decimal w
  | Integer => shape_integer w
  end.

(** The order in which the shapes are tried. *)
Definition priority (k : shape) : nat :=
  match k with
  | Grouped => 0
  | Decimal => 1
  | Integer => 2
  end.

Definition alternative (k : shape) : regex :=
  match k with
  | Grouped => QTY_GROUPED
  | Decimal => QTY_DECIMAL
  | Integer => QTY_INTEGER
  end.

(** What comes before the last run of digits in each alternative. *)
Definition front (k : shape) : regex :=
  match k with
  | Grouped =>
      Seq (Range 1 3 re_d)
        (Seq (Star (Seq (Chr ".") (Times 3 re_d))) (Chr ","))
  | Decimal => Seq (Plus re_d) (Chr ",")
  | Integer => Eps
  end.

Definition front_text (k : shape) (u : str) : Prop :=
  match k with
  | Grouped =>
      exists h gs, DIGITS h /\ length h <= 3 /\ Forall triple gs /\
                   u = h ++ concat gs ++ ","
  | Decimal => exists a, DIGITS a /\ u = a ++ ","
  | Integer => u = []
  end.

Definition re_triple : regex := Seq (Chr ".") (Times 3 re_d).

Definition prefix_of (w s : str) : Prop := exists post, s = w ++ post.

(** No text of any of the three shapes starts [s]. *)
Definition no_number_at (s : str) : Prop :=
  forall k w, prefix_of w s -> ~ has_shape k w.

(** [w] starts [s], has a shape that no shape of higher priority can
    replace at that place, and is the longest text of its shape there. *)
Definition best_at (s w : str) : Prop :=
  prefix_of w s /\
  exists k,
    has_shape k w /\
    (forall k' w', priority k' < priority k -> prefix_of w' s ->
                   ~ has_shape k' w') /\
    (forall w', prefix_of w' s -> has_shape k w' -> length w' <= length w).

(** The specification of the search: the result is empty when no
    position of the text starts a number, and otherwise it is the best
    match at the first position that starts one. *)
Definition first_number (text result : str) : Prop :=
  (result = [] /\ forall pre s, text = pre ++ s -> no_number_at s) \/
  (exists pre post,
     text = pre ++ result ++ post /\
     (forall p1 p2, pre = p1 ++ p2 -> p2 <> [] ->
                    no_number_at (p2 ++ result ++ post)) /\
     best_at (result ++ post) result).

(** The fallback of [pick_quantity_from_row]. *)
Definition search_quantity (joined : str) : str :=
  match re_search QTY_RE joined with
  | Some m => group joined m
  | None => ""
  end.

(** ** The not-available marker *)

(** "#N/D" in any letter case. *)
Definition is_ND (q : str) : Prop :=
  q = "#N/D" \/ q = "#n/D" \/ q = "#N/d" \/ q = "#n/d".

Definition ND_letters : list (N * ascii) :=
  [ (35, "#"); (78, "N"); (78, "n"); (47, "/"); (68, "D"); (68, "d") ]%N%char.

(** The third cell is there and, normalized, is neither empty nor the
    marker. *)
Definition third_cell_usable (cells : list str) : Prop :=
  3 <= length cells /\
  norm (nth 2 cells "") <> "" /\
  ~ is_ND (norm (nth 2 cells "")).

Definition qty_skip (r : skip_record) : Prop :=
  reason r = "skip_qty_empty_or_ND".

(** ** Orders and totals *)

(** A strict total order given by boolean tests. *)
Record strict_total {T} (eqb ltb : T -> T -> bool) : Prop := {
  st_eqb : forall x y, eqb x y = true <-> x = y;
  st_irrefl : forall x, ltb x x = false;
  st_trans : forall x y z, ltb x y = true -> ltb y z = true -> ltb x z = true;
  st_total : forall x y, ltb x y = false -> ltb y x = false -> x = y
}.

Arguments st_eqb {T eqb ltb} _ x y.
Arguments st_irrefl {T eqb ltb} _ x.
Arguments st_trans {T eqb ltb} _ x y z _ _.
Arguments st_total {T eqb ltb} _ x y _ _.

(** [x] may stand before [y]. *)
Definition key_le {K V} (ltb : K -> K -> bool) (x y : K * V) : Prop :=
  ltb (fst y) (fst x) = false.

(** The value [parse_pt_br_float] gives to a quantity. *)
Definition quantity_value (q : str) : float :=
  match py_float (commas_to_dots (without_dots q)) with
  | Ok x => x
  | Raise _ => f64_zero
  end.

Definition add_row (sums : dict) (r : str * str) : dict :=
  dict_add sums (fst r) (quantity_value (snd r)).

(** The distinct codes, in the order of their first occurrence. *)
Definition add_new (seen : list str) (c : str) : list str :=
  if existsb (fun c' => str_eqb c' c) seen then seen else seen ++ [c].

Definition distinct (codes : list str) : list str :=
  fold_left add_new codes [].

(** The quantities of the rows of a code, in the order of the rows. *)
Definition quantities_of (c : str) (rows : list (str * str)) : list str :=
  map snd (filter (fun r => str_eqb (fst r) c) rows).

(** The running total of a code: additions from left to right. *)
Definition total_from (start : float) (c : str) (rows : list (str * str))
  : float :=
  fold_left f64_add (map quantity_value (quantities_of c rows)) start.

Definition total_of (c : str) (rows : list (str * str)) : float :=
  total_from f64_zero c rows.

Definition key_of (c : str) : list key_elem :=
  match natural_key c with
  | Ok k => k
  | Raise _ => []
  end.

Definition keyed (c : str) : res (list key_elem * str) :=
  k <- natural_key c ;; Ok (k, c).

(** [c1] may stand before [c2]: the key of [c2] is not smaller. *)
Definition natural_le (c1 c2 : str) : Prop :=
  exists k1 k2,
    natural_key c1 = Ok k1 /\ natural_key c2 = Ok k2 /\
    key_ltb k2 k1 = false.

(** Strings and integers alternate, from a string to a string. *)
Fixpoint alternates (expect_int : bool) (key : list key_elem) : Prop :=
  match key with
  | [] => expect_int = true
  | KInt _ :: rest => expect_int = true /\ alternates false rest
  | KStr _ :: rest => expect_int = false /\ alternates true rest
  end.

(** The pieces of [re.split]: runs without digits and runs of digits, the
    latter never empty. *)
Fixpoint runs (digits : bool) (pieces : list str) : Prop :=
  match pieces with
  | [] => digits = true
  | p :: rest =>
      Forall (fun c => isdecimal c = digits) p /\
      (digits = true -> p <> []) /\
      runs (negb digits) rest
  end.

Definition key_piece (c : str) : res key_elem :=
  if isdigit c then n <- py_int c ;; Ok (KInt n) else Ok (KStr c).

Definition res_map {A B} (f : A -> B) (m : res A) : res B :=
  x <- m ;; Ok (f x).

(** ** Rows used in the statements *)

(** A row as [extract_code_qty] emits it. *)
Definition extracted_row (r : str * str) : Prop :=
  code_re_matches (fst r) = true /\ strip (fst r) = fst r /\
  snd r <> "" /\ ~ is_ND (snd r) /\ strip (snd r) = snd r.

Definition rows_in_order : list (str * str) :=
  [("17.2", "0,1"); ("2.1", "1.234,56"); ("17.2", "0,2"); ("17.10", "3")].

Definition rows_moved : list (str * str) :=
  [("17.10", "3"); ("17.2", "0,1"); ("17.2", "0,2"); ("2.1", "1.234,56")].

(** The rows of the counterexample: one code whose sum depends on the order
    of its terms, and two codes with the same natural key. *)
Definition rows_given : list (str * str) :=
  [("1", "10000000000000000"); ("1", "1"); ("1", "1"); ("01", "1")].

Definition rows_reversed : list (str * str) := rev rows_given.

Definition table_given : table :=
  [ ["Itens"; "Qtd"];
    ["1"; ""; "10000000000000000"];
    ["1"; ""; "1"];
    ["1"; ""; "1"];
    ["01"; ""; "1"] ].

Definition table_reversed : table :=
  [ ["Itens"; "Qtd"];
    ["01"; ""; "1"];
    ["1"; ""; "1"];
    ["1"; ""; "1"];
    ["1"; ""; "10000000000000000"] ].

(* ===================================================================== *)
(** * Further vocabulary *)
(* ===================================================================== *)

(** ** Documents *)

Definition empty_state : state :=
  {| results := []; logs := []; itens_tables := 0 |}.

(** The tables of a document that [is_itens_table] selects. *)
Definition target_tables (doc : document) : list table :=
  filter is_itens_table doc.

(** The rows below the headers of the selected tables. *)
Definition data_rows (doc : document) : nat :=
  list_sum (map (fun t => length t - 1) (target_tables doc)).

(** What one row contributes to the results and to the log. *)
Definition row_accepted (r : row) : list (str * str) :=
  results (extract_row 0 0 r empty_state).

Definition row_skipped (t_i r_i : nat) (r : row) : list skip_record :=
  logs (extract_row t_i r_i r empty_state).

(** A skip record of a table that comes [n] tables later. *)
Definition shift_table (n : nat) (r : skip_record) : skip_record :=
  match r with
  | (t_i, r_i, why, value) => (n + t_i, r_i, why, value)
  end.

(** A document with every cell text normalized beforehand. *)
Definition normalized (doc : document) : document :=
  map (map (map norm)) doc.

(** The row a data row gives, if any: its first cell, normalized, must
    match [CODE_RE]. *)
Definition accepted_row (r : row) : list (str * str) :=
  match r with
  | [] => []
  | cell0 :: _ =>
      if code_re_matches (norm cell0)
      then [(norm cell0, pick_quantity_from_row (map norm r))]
      else []
  end.

Definition accepted_rows (doc : document) : list (str * str) :=
  flat_map (fun t => flat_map accepted_row (tl t)) (target_tables doc).

(** The skip records of the rows of a table, and of the tables of a
    document, numbered from [r_i] and [t_i]. *)
Fixpoint rows_skipped (t_i r_i : nat) (rows : list row) : list skip_record :=
  match rows with
  | [] => []
  | r :: rows' => row_skipped t_i r_i r ++ rows_skipped t_i (S r_i) rows'
  end.

Fixpoint tables_skipped (t_i : nat) (ts : list table) : list skip_record :=
  match ts with
  | [] => []
  | t :: ts' =>
      (if is_itens_table t then rows_skipped t_i 2 (tl t) else [])
      ++ tables_skipped (S t_i) ts'
  end.

(** Why a row is skipped, and the value logged with the reason. *)
Definition skip_explains (r : row) (why value : str) : Prop :=
  (r = [] /\ why = "skip_empty_row" /\ value = "") \/
  (exists cell0 rest,
     r = cell0 :: rest /\ (norm cell0 = "" \/ is_ND (norm cell0)) /\
     why = "skip_code_empty_or_ND" /\ value = "") \/
  (exists cell0 rest,
     r = cell0 :: rest /\ norm cell0 <> "" /\ ~ is_ND (norm cell0) /\
     code_re_matches (norm cell0) = false /\
     why = "skip_code_invalid" /\ value = norm cell0).

(** ** Codes and their numbers *)

(** A code written from its digits: [a], or [a] and [b] around a dot. *)
Definition code_text (a : str) (b : option str) : str :=
  match b with
  | None => a
  | Some b' => a ++ "." ++ b'
  end.

Definition DIGITS_opt (b : option str) : Prop :=
  match b with
  | None => True
  | Some b' => DIGITS b'
  end.



(** ** Numbers in Brazilian notation *)

(** A text of decimal digits and dots. *)
Definition digits_and_dots (w : str) : Prop :=
  Forall (fun c => isdecimal c = true \/ c = "."%char) w.

(** ** The text of a total *)

(** The characters of a [,.2f] rendering. *)
Definition number_char (c : ascii) : Prop :=
  isdecimal c = true \/ In c (",.-nainf" : str).

(** Commas become dots and dots become commas. *)
Definition swap_separators (c : ascii) : ascii :=
  if Ascii.eqb c "," then "."%char
  else if Ascii.eqb c "." then ","%char
  else c.

(** ** Column widths of [save_xlsx] *)

(** [v = "" if cell.value is None else str(cell.value)], for the text
    cells that [save_xlsx] writes. *)
Definition cell_text (v : option str) : str :=
  match v with
  | None => ""
  | Some s => s
  end.

(** The width given to a column, from the values of its cells:
    [max_len] starts at 0 and takes [max(max_len, len(v))] for each cell;
    the width is [min(max_len + 2, 40)]. *)
Definition max_len (col : list (option str)) : nat :=
  fold_left (fun m v => Nat.max m (length (cell_text v))) col 0.

Definition column_width (col : list (option str)) : nat :=
  Nat.min (max_len col + 2) 40.

(* ===================================================================== *)
(** * Facts about characters and text *)
(* ===================================================================== *)

Ltac each_char c :=
  destruct c as [[] [] [] [] [] [] [] []]; vm_compute; try reflexivity;
  try discriminate; auto.

Lemma decimal_not_space c : isdecimal c = true -> isspace c = false.
Proof. each_char c. Qed.

Lemma decimal_is_digit_char c : isdecimal c = true -> isdigit_char c = true.
Proof. each_char c. Qed.

Lemma str_eqb_eq (a b : str) : str_eqb a b = true <-> a = b.
Proof.
  unfold str_eqb. revert b.
  induction a as [|x a IH]; intros [|y b]; simpl; split; intro H;
    try reflexivity; try discriminate.
  - apply andb_true_iff in H as [H1 H2].
    apply Ascii.eqb_eq in H1. apply IH in H2. congruence.
  - injection H as -> ->. rewrite Ascii.eqb_refl. simpl. now apply IH.
Qed.

Lemma str_eqb_refl (a : str) : str_eqb a a = true.
Proof. now apply str_eqb_eq. Qed.

Lemma str_eqb_neq (a b : str) : str_eqb a b = false <-> a <> b.
Proof.
  split; intro H.
  - intro E. apply str_eqb_eq in E. congruence.
  - destruct (str_eqb a b) eqn:E; [|reflexivity].
    apply str_eqb_eq in E. contradiction.
Qed.

Lemma is_empty_false (s : str) : is_empty s = false <-> s <> [].
Proof. destruct s; simpl; split; congruence. Qed.

(** ** White space at both ends *)

Lemma lstrip_split (s : str) :
  exists w, all_space w /\ s = w ++ lstrip s.
Proof.
  induction s as [|c s [w [Hw E]]]; simpl.
  - exists []. split; [constructor | reflexivity].
  - destruct (isspace c) eqn:Hc.
    + exists (c :: w). split; [now constructor | simpl; congruence].
    + exists []. split; [constructor | reflexivity].
Qed.

Lemma lstrip_head (s : str) c t : lstrip s = c :: t -> isspace c = false.
Proof.
  induction s as [|x s IH]; simpl; [discriminate|].
  destruct (isspace x) eqn:Hx; [exact IH|].
  intro E. injection E as -> _. exact Hx.
Qed.

Lemma lstrip_app_space (w s : str) : all_space w -> lstrip (w ++ s) = lstrip s.
Proof.
  induction 1 as [|c w Hc _ IH]; simpl; [reflexivity|]. now rewrite Hc.
Qed.

Lemma all_space_rev (w : str) : all_space w -> all_space (rev w).
Proof. apply Forall_rev. Qed.

Lemma rstrip_split (s : str) :
  exists w, all_space w /\ s = rstrip s ++ w.
Proof.
  unfold rstrip. destruct (lstrip_split (rev s)) as [w [Hw E]].
  exists (rev w). split; [now apply all_space_rev|].
  rewrite <- rev_app_distr, <- E. now rewrite rev_involutive.
Qed.

Lemma rstrip_app_space (s w : str) : all_space w -> rstrip (s ++ w) = rstrip s.
Proof.
  intro H. unfold rstrip. rewrite rev_app_distr.
  rewrite lstrip_app_space; [reflexivity | now apply all_space_rev].
Qed.

Lemma rstrip_last_no_space (s : str) c :
  isspace c = false -> rstrip (s ++ [c]) = s ++ [c].
Proof.
  intro H. unfold rstrip. rewrite rev_app_distr. simpl. rewrite H.
  simpl. now rewrite rev_involutive.
Qed.

(** Any text is its stripped core between two runs of white space. *)
Lemma strip_split (s : str) :
  exists w1 w2, all_space w1 /\ all_space w2 /\ s = w1 ++ strip s ++ w2.
Proof.
  destruct (lstrip_split s) as [w1 [H1 E1]].
  destruct (rstrip_split (lstrip s)) as [w2 [H2 E2]].
  exists w1, w2. repeat split; try assumption.
  unfold strip. now rewrite <- E2.
Qed.

(* ===================================================================== *)
(** * The matches of a regular expression *)
(* ===================================================================== *)

(** What a match consumes is a prefix of the text. *)
Lemma Match_consumes r i s i' s' :
  Match r i s i' s' -> exists w, s = w ++ s' /\ i' = i + length w.
Proof.
  induction 1;
    try (exists []; split; [reflexivity | simpl; lia]).
  - exists [c]. split; [reflexivity | simpl; lia].
  - destruct IHMatch1 as [w1 [-> ->]]. destruct IHMatch2 as [w2 [-> ->]].
    exists (w1 ++ w2). rewrite <- app_assoc, length_app.
    split; [reflexivity | lia].
  - assumption.
  - assumption.
  - destruct IHMatch1 as [w1 [-> ->]]. destruct IHMatch2 as [w2 [-> ->]].
    exists (w1 ++ w2). rewrite <- app_assoc, length_app.
    split; [reflexivity | lia].
Qed.

Section MatcherFacts.
Variable A : Type.
Implicit Types k : cont A.

Lemma star_loop_sound r :
  sound_for A r ->
  forall n k i s a, star_loop (run r) k n i s = Some a ->
    exists i' s', Match (Star r) i s i' s' /\ k i' s' = Some a.
Proof.
  intros IHr. induction n as [|n IHn]; intros k i s a H; simpl in H.
  - exists i, s. auto.
  - destruct (run r _ i s) as [a0|] eqn:E.
    + injection H as ->.
      apply IHr in E as [i1 [s1 [M1 K1]]].
      destruct (length s1 <? length s) eqn:L; [|discriminate].
      apply Nat.ltb_lt in L.
      apply IHn in K1 as [i2 [s2 [M2 K2]]].
      exists i2, s2. eauto.
    + exists i, s. auto.
Qed.

(** Whatever the matcher returns comes from a match and the continuation. *)
Theorem run_sound r : sound_for A r.
Proof.
  induction r; intros k i s a H; simpl in H.
  - exists i, s. auto.
  - destruct (Nat.eqb_spec i 0) as [->|]; [|discriminate].
    exists 0, s. auto.
  - destruct (at_end s) eqn:E; [|discriminate]. exists i, s. auto.
  - destruct s as [|c s]; [discriminate|].
    destruct (p c) eqn:E; [|discriminate]. exists (S i), s. auto.
  - apply IHr1 in H as [i1 [s1 [M1 H]]].
    apply IHr2 in H as [i2 [s2 [M2 H]]].
    exists i2, s2. eauto.
  - destruct (run r1 k i s) as [a1|] eqn:E.
    + injection H as ->. apply IHr1 in E as [i1 [s1 [M1 K1]]].
      exists i1, s1. auto.
    + apply IHr2 in H as [i2 [s2 [M2 K2]]]. exists i2, s2. auto.
  - eapply star_loop_sound; eauto.
Qed.

Lemma star_loop_complete r :
  complete_for A r ->
  forall n k i s i' s' a, length s <= n ->
    Match (Star r) i s i' s' -> k i' s' = Some a ->
    exists a', star_loop (run r) k n i s = Some a'.
Proof.
  intros IHr. induction n as [|n IHn]; intros k i s i' s' a Hn M K.
  - inversion M; subst.
    + simpl. eauto.
    + lia.
  - simpl. inversion M as [| | | | | | | |r0 i0 s0 i1 s1 i2 s2 M1 L M2]; subst.
    + destruct (run r _ i' s'); eauto.
    + assert (Hn1 : length s1 <= n) by lia.
      destruct (IHn k i1 s1 i' s' a Hn1 M2 K) as [a1 E1].
      destruct (IHr (fun i'0 s'0 =>
                       if length s'0 <? length s
                       then star_loop (run r) k n i'0 s'0 else None)
                  i s i1 s1 a1 M1) as [a2 E2].
      * apply Nat.ltb_lt in L. now rewrite L.
      * rewrite E2. eauto.
Qed.

(** Whenever a match exists after which the continuation succeeds, the
    matcher succeeds (possibly on a match of higher priority). *)
Theorem run_complete r : complete_for A r.
Proof.
  induction r; intros k i s i' s' a M K; simpl.
  - inversion M; subst. eauto.
  - inversion M; subst. eauto.
  - inversion M as [| |? ? E| | | | | |]; subst. rewrite E. eauto.
  - inversion M as [| | |? ? ? ? E| | | | |]; subst. rewrite E. eauto.
  - inversion M as [| | | |? ? ? ? i1 s1 ? ? M1 M2| | | |]; subst.
    destruct (IHr2 k i1 s1 i' s' a M2 K) as [a2 E2].
    eapply IHr1; eauto.
  - inversion M as [| | | | |? ? ? ? ? ? M1|? ? ? ? ? ? M2| |]; subst.
    + destruct (IHr1 k i s i' s' a M1 K) as [a1 ->]. eauto.
    + destruct (run r1 k i s); eauto.
  - eapply star_loop_complete; eauto.
Qed.

(** The matcher fails exactly when no match satisfies the continuation. *)
Corollary run_none r k i s :
  run r k i s = None ->
  forall i' s', Match r i s i' s' -> k i' s' = None.
Proof.
  intros H i' s' M. destruct (k i' s') as [a|] eqn:K; [|reflexivity].
  pose proof (run_complete r) as C.
  destruct (C k i s i' s' a M K) as [a' E]. congruence.
Qed.
End MatcherFacts.

(** ** Inversion of matches *)

Lemma Match_seq_inv r1 r2 i s i2 s2 :
  Match (Seq r1 r2) i s i2 s2 ->
  exists i1 s1, Match r1 i s i1 s1 /\ Match r2 i1 s1 i2 s2.
Proof. inversion 1; subst; eauto. Qed.

Lemma Match_alt_inv r1 r2 i s i' s' :
  Match (Alt r1 r2) i s i' s' -> Match r1 i s i' s' \/ Match r2 i s i' s'.
Proof. inversion 1; subst; auto. Qed.

Lemma Match_eps_inv i s i' s' : Match Eps i s i' s' -> i' = i /\ s' = s.
Proof. inversion 1; subst; auto. Qed.

Lemma Match_bol_inv i s i' s' :
  Match Bol i s i' s' -> i = 0 /\ i' = 0 /\ s' = s.
Proof. inversion 1; subst; auto. Qed.

Lemma Match_eol_inv i s i' s' :
  Match Eol i s i' s' -> at_end s = true /\ i' = i /\ s' = s.
Proof. inversion 1; subst; auto. Qed.

Lemma Match_cls_inv p i s i' s' :
  Match (Cls p) i s i' s' -> exists c, p c = true /\ s = c :: s' /\ i' = S i.
Proof. inversion 1; subst; eauto. Qed.

Lemma Match_chr_inv c i s i' s' :
  Match (Chr c) i s i' s' -> s = c :: s' /\ i' = S i.
Proof.
  intro M. apply Match_cls_inv in M as [x [E [-> ->]]].
  apply Ascii.eqb_eq in E. subst. auto.
Qed.

Lemma Match_opt_inv r i s i' s' :
  Match (Opt r) i s i' s' -> Match r i s i' s' \/ (i' = i /\ s' = s).
Proof.
  intro M. apply Match_alt_inv in M as [M|M]; [now left|].
  right. now apply Match_eps_inv.
Qed.

Lemma Match_star_cls_inv p i s i' s' :
  Match (Star (Cls p)) i s i' s' ->
  exists w, all_in p w /\ s = w ++ s' /\ i' = i + length w.
Proof.
  intro M. remember (Star (Cls p)) as r eqn:Er.
  induction M; try discriminate; injection Er as ->.
  - exists []. repeat split; [constructor | simpl; lia].
  - destruct (IHM2 eq_refl) as [w [Hw [-> ->]]].
    apply Match_cls_inv in M1 as [c [Hc [-> ->]]].
    exists (c :: w). repeat split; [now constructor | simpl; lia].
Qed.

Lemma Match_star_cls p w i s :
  all_in p w -> Match (Star (Cls p)) i (w ++ s) (i + length w) s.
Proof.
  intro H. revert i. induction H as [|c w Hc _ IH]; intro i; simpl.
  - rewrite Nat.add_0_r. constructor.
  - replace (i + S (length w)) with (S i + length w) by lia.
    eapply M_star_step; [now constructor | simpl; lia | apply IH].
Qed.

Lemma Match_plus_cls_inv p i s i' s' :
  Match (Plus (Cls p)) i s i' s' ->
  exists w, w <> [] /\ all_in p w /\ s = w ++ s' /\ i' = i + length w.
Proof.
  intro M. apply Match_seq_inv in M as [i1 [s1 [M1 M2]]].
  apply Match_cls_inv in M1 as [c [Hc [-> ->]]].
  apply Match_star_cls_inv in M2 as [w [Hw [-> ->]]].
  exists (c :: w). repeat split;
    [discriminate | now constructor | simpl; lia].
Qed.

Lemma Match_plus_cls p w i s :
  w <> [] -> all_in p w -> Match (Plus (Cls p)) i (w ++ s) (i + length w) s.
Proof.
  intros Hne H. destruct H as [|c w Hc Hw]; [contradiction|].
  simpl. replace (i + S (length w)) with (S i + length w) by lia.
  eapply M_seq; [now constructor | now apply Match_star_cls].
Qed.

Lemma Match_chr c i s : Match (Chr c) i (c :: s) (S i) s.
Proof. constructor. apply Ascii.eqb_refl. Qed.

(** ** Text without white space at its ends *)

Lemma lstrip_all_space (w : str) : all_space w -> lstrip w = [].
Proof.
  intro H. rewrite <- (app_nil_r w). now rewrite lstrip_app_space.
Qed.

Lemma strip_between (w1 t w2 : str) :
  all_space w1 -> all_space w2 -> no_space_ends t ->
  strip (w1 ++ t ++ w2) = t.
Proof.
  intros H1 H2 [Hh Hl]. unfold strip.
  rewrite lstrip_app_space by assumption.
  destruct t as [|c t'].
  - simpl. rewrite lstrip_all_space by assumption. reflexivity.
  - simpl. rewrite (Hh c t' eq_refl).
    change (c :: t' ++ w2) with ((c :: t') ++ w2).
    rewrite rstrip_app_space by assumption.
    destruct (@exists_last _ (c :: t')) as [t0 [x E]]; [discriminate|].
    rewrite E. apply rstrip_last_no_space. eapply Hl. exact E.
Qed.

Lemma strip_no_space_ends (s : str) : no_space_ends (strip s).
Proof.
  split.
  - intros c t' E. unfold strip in E.
    destruct (rstrip_split (lstrip s)) as [w [Hw Ew]].
    rewrite E in Ew. simpl in Ew.
    eapply lstrip_head. exact Ew.
  - intros t' c E. unfold strip, rstrip in E.
    apply (f_equal (@rev ascii)) in E.
    rewrite rev_involutive, rev_app_distr in E. simpl in E.
    eapply lstrip_head. exact E.
Qed.

Lemma strip_idempotent (s : str) : strip (strip s) = strip s.
Proof.
  pose proof (strip_between [] (strip s) []) as E.
  simpl in E. rewrite app_nil_r in E.
  apply E; try constructor.
  - apply strip_no_space_ends.
  - apply strip_no_space_ends.
Qed.

(* ===================================================================== *)
(** * CodeValidator *)
(* ===================================================================== *)

Ltac invert_match :=
  repeat match goal with
  | M : Match (Plus (Cls _)) _ _ _ _ |- _ =>
      apply Match_plus_cls_inv in M as (? & ? & ? & ? & ?)
  | M : Match (Star (Cls _)) _ _ _ _ |- _ =>
      apply Match_star_cls_inv in M as (? & ? & ? & ?)
  | M : Match (Chr _) _ _ _ _ |- _ =>
      apply Match_chr_inv in M as (? & ?)
  | M : Match (Opt _) _ _ _ _ |- _ =>
      apply Match_opt_inv in M as [M | (? & ?)]
  | M : Match (Seq _ _) _ _ _ _ |- _ =>
      apply Match_seq_inv in M as (? & ? & ? & M)
  | M : Match Bol _ _ _ _ |- _ =>
      apply Match_bol_inv in M as (? & ? & ?)
  | M : Match Eol _ _ _ _ |- _ =>
      apply Match_eol_inv in M as (? & ? & ?)
  | M : Match Eps _ _ _ _ |- _ =>
      apply Match_eps_inv in M as (? & ?)
  end.

Lemma DIGITS_head a t c t' :
  DIGITS a -> a ++ t = c :: t' -> isdecimal c = true.
Proof.
  intros [Hne Ha] E. destruct Ha as [|x a Hx _]; [contradiction|].
  simpl in E. injection E as -> _. exact Hx.
Qed.

Lemma DIGITS_last t b t' c :
  DIGITS b -> t ++ b = t' ++ [c] -> isdecimal c = true.
Proof.
  intros [Hne Hb] E.
  destruct (exists_last Hne) as [b' [x Eb]]. subst b.
  rewrite app_assoc in E. apply app_inj_tail in E as [_ ->].
  apply Forall_app in Hb as [_ Hx]. now inversion Hx.
Qed.

Lemma code_grammar_no_space_ends t : code_grammar t -> no_space_ends t.
Proof.
  intros [a [Ha [->|[b [Hb ->]]]]]; split.
  - intros c t' E. apply decimal_not_space.
    apply (DIGITS_head a [] c t'); auto. now rewrite app_nil_r.
  - intros t' c E. apply decimal_not_space.
    apply (DIGITS_last [] a t' c); auto.
  - intros c t' E. apply decimal_not_space.
    apply (DIGITS_head a ("." ++ b) c t'); auto.
  - intros t' c E. apply decimal_not_space.
    rewrite app_assoc in E.
    apply (DIGITS_last (a ++ ".") b t' c); auto.
Qed.

Lemma at_end_all_space s : at_end s = true -> all_space s.
Proof.
  destruct s as [|c [|c' s]]; simpl; intro H; try discriminate.
  - constructor.
  - apply Ascii.eqb_eq in H. subst. repeat constructor.
Qed.

Lemma code_re_sound c :
  code_re_matches c = true ->
  exists w1 t w2, all_space w1 /\ all_space w2 /\ code_grammar t /\
                  c = w1 ++ t ++ w2.
Proof.
  unfold code_re_matches, re_match. intro H.
  destruct (run CODE_RE accept 0 c) as [j|] eqn:E; [clear H|discriminate].
  apply run_sound in E as [i' [s' [M _]]].
  unfold CODE_RE, re_d, re_s in M. invert_match; subst.
  - match goal with
    | |- exists _ _ _, _ /\ _ /\ _ /\
           ?w1 ++ ?a ++ _ :: ?b ++ ?w2 ++ ?e = _ =>
        exists w1, (a ++ "." ++ b), (w2 ++ e);
        repeat split; try assumption;
        [ apply Forall_app; split; [assumption | now apply at_end_all_space]
        | exists a; split; [now split|]; right; exists b; now repeat split
        | now rewrite <- !app_assoc ]
    end.
  - match goal with
    | |- exists _ _ _, _ /\ _ /\ _ /\ ?w1 ++ ?a ++ ?w2 ++ ?e = _ =>
        exists w1, a, (w2 ++ e);
        repeat split; try assumption;
        [ apply Forall_app; split; [assumption | now apply at_end_all_space]
        | exists a; split; [now split | now left] ]
    end.
Qed.

Lemma code_re_complete w1 t w2 :
  all_space w1 -> all_space w2 -> code_grammar t ->
  code_re_matches (w1 ++ t ++ w2) = true.
Proof.
  intros H1 H2 [a [[Hne Ha] Ht]].
  assert (Mw2 : forall i, Match (Star re_s) i w2 (i + length w2) []).
  { intro i. pose proof (Match_star_cls isspace w2 i [] H2) as M.
    now rewrite app_nil_r in M. }
  assert (M : exists j, Match CODE_RE 0 (w1 ++ t ++ w2) j []).
  { destruct Ht as [->|[b [[Hnb Hb] ->]]].
    - eexists. unfold CODE_RE.
      eapply M_seq; [constructor|].
      eapply M_seq; [apply (Match_star_cls isspace); exact H1|].
      eapply M_seq; [apply (Match_plus_cls isdecimal); assumption|].
      eapply M_seq; [apply M_alt_r; constructor|].
      eapply M_seq; [apply Mw2 | now constructor].
    - eexists. unfold CODE_RE.
      eapply M_seq; [constructor|].
      eapply M_seq; [apply (Match_star_cls isspace); exact H1|].
      rewrite <- !app_assoc.
      eapply M_seq; [apply (Match_plus_cls isdecimal); assumption|].
      eapply M_seq.
      { apply M_alt_l. simpl.
        eapply M_seq; [apply Match_chr|].
        apply (Match_plus_cls isdecimal); assumption. }
      eapply M_seq; [apply Mw2 | now constructor]. }
  destruct M as [j M].
  pose proof (run_complete nat CODE_RE) as C.
  destruct (C accept 0 (w1 ++ t ++ w2) j [] j M eq_refl) as [j' E].
  unfold code_re_matches, re_match. now rewrite E.
Qed.

Lemma code_re_matches_iff c :
  code_re_matches c = true <-> code_grammar (strip c).
Proof.
  split.
  - intro H. apply code_re_sound in H as [w1 [t [w2 [H1 [H2 [G ->]]]]]].
    rewrite strip_between; auto using code_grammar_no_space_ends.
  - intro G. destruct (strip_split c) as [w1 [w2 [H1 [H2 E]]]].
    rewrite E. now apply code_re_complete.
Qed.

Lemma code_grammar_chars t x :
  code_grammar t -> In x t ->
  isdecimal x = true \/ x = "."%char.
Proof.
  intros [a [[_ Ha] [->|[b [[_ Hb] ->]]]]] Hin.
  - left. unfold all_in in Ha. rewrite Forall_forall in Ha. auto.
  - unfold all_in in Ha, Hb. rewrite Forall_forall in Ha, Hb.
    apply in_app_or in Hin as [Hin|[<-|Hin]]; auto.
Qed.

(** C2. [CODE_RE.match] accepts a string exactly when, once the white space
    at its two ends is ignored, it is one or more digits, optionally
    followed by a dot and one or more digits.  A string with any other
    character is rejected, in particular letters and the minus sign, and so
    are the empty string and codes with several dots. *)
Theorem CodeValidator_grammar :
  (forall c, code_re_matches c = true <-> code_grammar (strip c)) /\
  (forall c x, In x c ->
     isdecimal x = false -> x <> "."%char -> isspace x = false ->
     code_re_matches c = false) /\
  code_re_matches "" = false /\
  code_re_matches "abc" = false /\
  code_re_matches "1.2.3" = false /\
  code_re_matches "-5" = false.
Proof.
  split; [exact code_re_matches_iff|].
  split; [|repeat split; reflexivity].
  intros c x Hin Hd Hdot Hs.
  destruct (code_re_matches c) eqn:E; [exfalso|reflexivity].
  apply code_re_sound in E as [w1 [t [w2 [H1 [H2 [G ->]]]]]].
  unfold all_space in H1, H2. rewrite Forall_forall in H1, H2.
  apply in_app_or in Hin as [Hin|Hin]; [apply H1 in Hin; congruence|].
  apply in_app_or in Hin as [Hin|Hin]; [|apply H2 in Hin; congruence].
  destruct (code_grammar_chars t x G Hin); congruence.
Qed.

(* ===================================================================== *)
(** * TableClassifier *)
(* ===================================================================== *)

Lemma lower_char_itens c x :
  In c "itens" -> (lower_char x = c <-> same_letter c x).
Proof.
  unfold same_letter. simpl.
  intros [<-|[<-|[<-|[<-|[<-|[]]]]]];
    (destruct x as [[] [] [] [] [] [] [] []]; vm_compute;
     (split;
      [ intro H; try discriminate H;
        ((left; reflexivity) || (right; reflexivity))
      | intros [H|H]; try discriminate H; reflexivity ])).
Qed.

Lemma lower_eqb_itens t :
  lower_eqb t "itens" = true <-> equals_ignoring_case t "itens".
Proof.
  unfold lower_eqb, equals_ignoring_case. rewrite str_eqb_eq.
  assert (G : forall word, (forall c, In c word -> In c "itens") ->
            forall t, lower t = word <-> Forall2 same_letter word t).
  { induction word as [|c word IH]; intros Hin u.
    - destruct u; simpl; split; intro H; try discriminate;
        try constructor; inversion H.
    - assert (Hc : In c "itens") by (apply Hin; now left).
      assert (Hw : forall c0, In c0 word -> In c0 "itens")
        by (intros c0 H0; apply Hin; now right).
      destruct u as [|x u]; simpl; split; intro H; try discriminate.
      + inversion H.
      + injection H as Hx Hu. constructor.
        * now apply lower_char_itens.
        * now apply IH.
      + inversion H; subst. f_equal.
        * now apply lower_char_itens.
        * now apply IH. }
  apply G. auto.
Qed.

(** C6. [is_itens_table] is false for a table without rows; for a table
    with rows it is true exactly when some cell of row 0, normalized, equals
    "itens" with letter case ignored; the other rows play no part. *)
Theorem TableClassifier_header_only :
  is_itens_table [] = false /\
  (forall (row0 : row) (others : list row),
     is_itens_table (row0 :: others) = true <->
     exists cell, In cell row0 /\ equals_ignoring_case (norm cell) "itens") /\
  (forall (row0 : row) (others others' : list row),
     is_itens_table (row0 :: others) = is_itens_table (row0 :: others')).
Proof.
  split; [reflexivity|]. split; [|reflexivity].
  intros row0 others. simpl. rewrite existsb_exists. split.
  - intros [t [Hin H]]. apply in_map_iff in Hin as [cell [<- Hin]].
    exists cell. split; [assumption | now apply lower_eqb_itens].
  - intros [cell [Hin H]]. exists (norm cell).
    split; [now apply in_map | now apply lower_eqb_itens].
Qed.

(* ===================================================================== *)
(** * RowExtractor *)
(* ===================================================================== *)

(** Each row adds one entry, either to the results or to the log. *)
Lemma extract_row_one t_i r_i r st :
  (exists x, results (extract_row t_i r_i r st) = results st ++ [x] /\
             logs (extract_row t_i r_i r st) = logs st) \/
  (exists x, results (extract_row t_i r_i r st) = results st /\
             logs (extract_row t_i r_i r st) = logs st ++ [x]).
Proof.
  unfold extract_row.
  destruct (map norm r) as [|cell0 cells];
    [right; eexists; split; reflexivity|].
  repeat match goal with
         | |- context [if ?b then _ else _] => destruct b
         end;
    try (right; eexists; split; reflexivity);
    left; eexists; split; reflexivity.
Qed.

Lemma extract_rows_counts rows :
  forall t_i r_i st,
  exists acc skp,
    results (extract_rows t_i r_i rows st) = results st ++ acc /\
    logs (extract_rows t_i r_i rows st) = logs st ++ skp /\
    length acc + length skp = length rows.
Proof.
  induction rows as [|r rows IH]; intros t_i r_i st; simpl.
  - exists [], []. now rewrite !app_nil_r.
  - destruct (IH t_i (S r_i) (extract_row t_i r_i r st))
      as [acc [skp [Ea [Es El]]]].
    destruct (extract_row_one t_i r_i r st) as [[x [Er Eg]]|[x [Er Eg]]];
      rewrite Er, Eg in *.
    + exists (x :: acc), skp. rewrite Ea, Es, <- app_assoc.
      simpl. repeat split. lia.
    + exists acc, (x :: skp). rewrite Ea, Es, <- app_assoc.
      simpl. repeat split. lia.
Qed.

(** C5. For a target table, the rows accepted are at most the rows of the
    table minus one, and the rows accepted plus the skip records written
    are exactly the data rows: no row is dropped silently. *)
Theorem RowExtractor_counts (t_i : nat) (t : table) (st : state) :
  is_itens_table t = true ->
  exists accepted skipped,
    results (extract_table t_i t st) = results st ++ accepted /\
    logs (extract_table t_i t st) = logs st ++ skipped /\
    length accepted <= length t - 1 /\
    length accepted + length skipped = length t - 1.
Proof.
  intro H. unfold extract_table. rewrite H. simpl.
  match goal with
  | |- context [extract_rows t_i 2 (tl t) ?s] =>
      destruct (extract_rows_counts (tl t) t_i 2 s) as [acc [skp [Ea [Es El]]]]
  end.
  exists acc, skp. simpl in Ea, Es.
  assert (Lt : length (tl t) = length t - 1) by (destruct t; simpl; lia).
  repeat split; try assumption; lia.
Qed.

Lemma RowExtractor_counts_witness :
  let t : table := [["Itens"; "Qtd"]; ["17.1"; ""; "5,00"]; ["x"]; []] in
  let st := {| results := []; logs := []; itens_tables := 0 |} in
  exists accepted skipped,
    results (extract_table 1 t st) = results st ++ accepted /\
    logs (extract_table 1 t st) = logs st ++ skipped /\
    length accepted <= length t - 1 /\
    length accepted + length skipped = length t - 1.
Proof.
  intros t st. apply (RowExtractor_counts 1 t st). reflexivity.
Defined.

(* ===================================================================== *)
(** * The pipeline on the scenario of the specification *)
(* ===================================================================== *)

Lemma extract_tables_not_target ts :
  Forall not_target ts -> forall t_i st, extract_tables t_i ts st = st.
Proof.
  induction 1 as [|t ts Ht _ IH]; intros t_i st; simpl; [reflexivity|].
  unfold extract_table. rewrite Ht. simpl. apply IH.
Qed.

Lemma extract_tables_app ts1 ts2 :
  forall t_i st,
    extract_tables t_i (ts1 ++ ts2) st =
    extract_tables (t_i + length ts1) ts2 (extract_tables t_i ts1 st).
Proof.
  induction ts1 as [|t ts1 IH]; intros t_i st; simpl.
  - now rewrite Nat.add_0_r.
  - rewrite IH. f_equal. lia.
Qed.

(** C1. A document whose only target table has the header row
    ["Itens", "Qtd"] and the data rows of the scenario yields the two
    accepted rows, one skip record, with reason "skip_code_empty_or_ND",
    and the consolidated list [("17.1", "8,50")]. *)
Theorem end_to_end_scenario (before after : list table) :
  Forall not_target before -> Forall not_target after ->
  let doc := before ++ [scenario_table] ++ after in
  fst (extract_code_qty doc) = [("17.1", "5,00"); ("17.1", "3,50")] /\
  ignored_details (snd (extract_code_qty doc)) =
    [(S (length before), 4, "skip_code_empty_or_ND", "")] /\
  map reason (ignored_details (snd (extract_code_qty doc))) =
    ["skip_code_empty_or_ND"] /\
  rows_extracted (snd (extract_code_qty doc)) = 2 /\
  rows_ignored (snd (extract_code_qty doc)) = 1 /\
  meta_itens_tables (snd (extract_code_qty doc)) = 1 /\
  consolidate_rows (fst (extract_code_qty doc)) = Ok [("17.1", "8,50")].
Proof.
  intros Hb Ha doc. subst doc. unfold extract_code_qty.
  rewrite extract_tables_app, (extract_tables_not_target before Hb).
  rewrite extract_tables_app, (extract_tables_not_target after Ha).
  cbn [fst snd ignored_details rows_extracted rows_ignored meta_itens_tables].
  replace (1 + length before) with (S (length before)) by lia.
  repeat split; vm_compute; reflexivity.
Qed.

Lemma end_to_end_scenario_witness :
  let doc := [ [["Descricao"; "Valor"]; ["17.9"; ""; "1"]] ]
             ++ [scenario_table] ++ [ [] ] in
  fst (extract_code_qty doc) = [("17.1", "5,00"); ("17.1", "3,50")] /\
  ignored_details (snd (extract_code_qty doc)) =
    [(2, 4, "skip_code_empty_or_ND", "")] /\
  map reason (ignored_details (snd (extract_code_qty doc))) =
    ["skip_code_empty_or_ND"] /\
  rows_extracted (snd (extract_code_qty doc)) = 2 /\
  rows_ignored (snd (extract_code_qty doc)) = 1 /\
  meta_itens_tables (snd (extract_code_qty doc)) = 1 /\
  consolidate_rows (fst (extract_code_qty doc)) = Ok [("17.1", "8,50")].
Proof.
  apply (end_to_end_scenario [ [["Descricao"; "Valor"]; ["17.9"; ""; "1"]] ]
           [ [] ]).
  - repeat constructor.
  - repeat constructor.
Defined.

(* ===================================================================== *)
(** * LocaleNumberParser *)
(* ===================================================================== *)

Lemma replace_char_by_char a b s :
  replace [a] [b] s = map (fun c => if Ascii.eqb a c then b else c) s.
Proof.
  unfold replace. induction s as [|c s IH]; simpl; [reflexivity|].
  rewrite andb_true_r. destruct (Ascii.eqb a c); simpl; now rewrite IH.
Qed.

Lemma replace_char_by_nothing a s :
  replace [a] [] s = filter (fun c => negb (Ascii.eqb a c)) s.
Proof.
  unfold replace. induction s as [|c s IH]; simpl; [reflexivity|].
  rewrite andb_true_r. destruct (Ascii.eqb a c); simpl; now rewrite IH.
Qed.

Lemma clean_text s :
  replace "," "." (replace "." "" s) = commas_to_dots (without_dots s).
Proof. now rewrite replace_char_by_nothing, replace_char_by_char. Qed.

Lemma parse_pt_br_float_total s :
  parse_pt_br_float s =
  Ok (match py_float (commas_to_dots (without_dots s)) with
      | Ok x => x
      | Raise _ => f64_zero
      end).
Proof.
  unfold parse_pt_br_float. rewrite clean_text.
  destruct (py_float _) as [x|[]]; reflexivity.
Qed.

(** C8. [parse_pt_br_float] removes every dot, turns every comma into a
    dot and converts the result with [float]; when [float] raises it
    returns 0.0, so it never raises itself.  The three values of the
    specification are as stated. *)
Theorem LocaleNumberParser_lenient :
  (forall s,
     parse_pt_br_float s =
     Ok (match py_float (commas_to_dots (without_dots s)) with
         | Ok x => x
         | Raise _ => Prim2SF 0%float
         end)) /\
  parse_pt_br_float "1.234,56" = Ok (Prim2SF 1234.56%float) /\
  parse_pt_br_float "10,5" = Ok (Prim2SF 10.5%float) /\
  py_float (commas_to_dots (without_dots "garbage")) = Raise ValueError /\
  parse_pt_br_float "garbage" = Ok (Prim2SF 0%float).
Proof.
  split; [exact parse_pt_br_float_total|].
  split; [|split; [|split]]; vm_compute; reflexivity.
Qed.

Lemma filter_twice {A} (f : A -> bool) (l : list A) :
  filter f (filter f l) = filter f l.
Proof.
  induction l as [|x l IH]; [reflexivity|].
  cbn [filter]. destruct (f x) eqn:E; [|assumption].
  cbn [filter]. now rewrite E, IH.
Qed.

Lemma without_dots_app a b :
  without_dots (a ++ "." ++ b) = without_dots (a ++ b).
Proof. unfold without_dots. now rewrite !filter_app. Qed.

(** C10. Every dot of the input is deleted before the conversion, so a dot
    written as a decimal separator joins the digits on its two sides:
    "1.5" is read as 15.0 and not as 1.5. *)
Theorem LocaleNumberParser_dot_is_dropped :
  (forall s, parse_pt_br_float s = parse_pt_br_float (without_dots s)) /\
  (forall a b,
     parse_pt_br_float (a ++ "." ++ b) = parse_pt_br_float (a ++ b)) /\
  parse_pt_br_float "1.5" = Ok (Prim2SF 15%float) /\
  parse_pt_br_float "1.5" <> Ok (Prim2SF 1.5%float).
Proof.
  assert (I : forall s, without_dots (without_dots s) = without_dots s)
    by (intro s; apply filter_twice).
  split; [|split; [|split]].
  - intro s. now rewrite !parse_pt_br_float_total, I.
  - intros a b. now rewrite !parse_pt_br_float_total, without_dots_app.
  - vm_compute. reflexivity.
  - vm_compute. discriminate.
Qed.

(* ===================================================================== *)
(** * Searching *)
(* ===================================================================== *)

(** [search_from] returns the first start position at which the matcher
    succeeds, with what the matcher returns there. *)
Lemma search_from_spec r s :
  forall i,
    match search_from r i s with
    | Some (a, b) =>
        exists pre post,
          s = pre ++ post /\ a = i + length pre /\
          run r accept a post = Some b /\
          (forall p1 p2, pre = p1 ++ p2 -> p2 <> [] ->
             run r accept (i + length p1) (p2 ++ post) = None)
    | None =>
        forall pre post, s = pre ++ post ->
          run r accept (i + length pre) post = None
    end.
Proof.
  induction s as [|c s IH]; intro i; simpl.
  - destruct (run r accept i []) as [j|] eqn:E.
    + exists [], []. simpl. rewrite Nat.add_0_r.
      split; [reflexivity|]. split; [reflexivity|]. split; [assumption|].
      intros p1 p2 Ep Hne. destruct p1; destruct p2; try discriminate.
      contradiction.
    + intros pre post Ep. destruct pre; destruct post; try discriminate.
      simpl. now rewrite Nat.add_0_r.
  - destruct (run r accept i (c :: s)) as [j|] eqn:E.
    + exists [], (c :: s). simpl. rewrite Nat.add_0_r.
      split; [reflexivity|]. split; [reflexivity|]. split; [assumption|].
      intros p1 p2 Ep Hne. destruct p1; destruct p2; try discriminate.
      contradiction.
    + specialize (IH (S i)).
      destruct (search_from r (S i) s) as [[a b]|].
      * destruct IH as [pre [post [-> [-> [Hr Hn]]]]].
        exists (c :: pre), post.
        split; [reflexivity|]. split; [simpl; lia|]. split; [assumption|].
        intros p1 p2 Ep Hne. destruct p1 as [|x p1].
        -- simpl in *. subst p2. simpl. now rewrite Nat.add_0_r.
        -- simpl in Ep. injection Ep as -> ->.
           replace (i + length (x :: p1)) with (S i + length p1)
             by (simpl; lia).
           now apply Hn.
      * intros pre post Ep. destruct pre as [|x pre].
        -- simpl in *. subst post. now rewrite Nat.add_0_r.
        -- simpl in Ep. injection Ep as -> ->.
           replace (i + length (x :: pre)) with (S i + length pre)
             by (simpl; lia).
           now apply IH.
Qed.

Lemma group_slice (pre w post : str) :
  group (pre ++ w ++ post) (length pre, length pre + length w) = w.
Proof.
  unfold group. simpl.
  replace (length pre + length w - length pre) with (length w) by lia.
  rewrite skipn_app, skipn_all, Nat.sub_diag. simpl.
  rewrite firstn_app, firstn_all, Nat.sub_diag. simpl. apply app_nil_r.
Qed.

(** ** Greedy runs of one class *)

Lemma run_seq {A} r1 r2 (k : cont A) i s :
  run (Seq r1 r2) k i s = run r1 (run r2 k) i s.
Proof. reflexivity. Qed.

Lemma run_alt {A} r1 r2 (k : cont A) i s :
  run (Alt r1 r2) k i s =
  match run r1 k i s with Some a => Some a | None => run r2 k i s end.
Proof. reflexivity. Qed.

Lemma run_cls_cons {A} p (k : cont A) i c s :
  run (Cls p) k i (c :: s) = if p c then k (S i) s else None.
Proof. reflexivity. Qed.

Lemma run_star {A} r (k : cont A) i s :
  run (Star r) k i s = star_loop (run r) k (length s) i s.
Proof. reflexivity. Qed.

Lemma span_spec p s :
  s = fst (span p s) ++ snd (span p s) /\
  all_in p (fst (span p s)) /\
  (forall c s', snd (span p s) = c :: s' -> p c = false).
Proof.
  induction s as [|c s [E [Ha Hn]]]; simpl.
  - repeat split; [constructor | discriminate].
  - destruct (p c) eqn:Hc.
    + destruct (span p s) as [a b]. simpl in *. repeat split.
      * now f_equal.
      * now constructor.
      * assumption.
    + simpl. repeat split; [constructor|].
      intros c0 s' E0. now injection E0 as -> _.
Qed.

Lemma star_cls_greedy p :
  forall n s i, length s <= n ->
    star_loop (run (Cls p)) accept n i s
    = Some (i + length (fst (span p s))).
Proof.
  induction n as [|n IH]; intros s i Hn.
  - destruct s; [|simpl in Hn; lia]. simpl. now rewrite Nat.add_0_r.
  - destruct s as [|c s]; simpl.
    + now rewrite Nat.add_0_r.
    + destruct (p c) eqn:Hc.
      * replace (length s <? S (length s)) with true
          by (symmetry; apply Nat.ltb_lt; lia).
        rewrite IH by (simpl in Hn; lia).
        destruct (span p s) as [a b]. simpl. f_equal. lia.
      * simpl. now rewrite Nat.add_0_r.
Qed.

(** [\d+] at the end of a pattern takes the whole run of digits. *)
Lemma plus_cls_greedy p i s j :
  run (Plus (Cls p)) accept i s = Some j ->
  exists w post,
    s = w ++ post /\ w <> [] /\ all_in p w /\ j = i + length w /\
    not_starting p post.
Proof.
  unfold Plus. rewrite run_seq.
  destruct s as [|c s]; [discriminate|].
  rewrite run_cls_cons. destruct (p c) eqn:Hc; [|discriminate].
  rewrite run_star, star_cls_greedy by lia. intro E. injection E as <-.
  destruct (span_spec p s) as [Es [Ha Hn]].
  exists (c :: fst (span p s)), (snd (span p s)). repeat split.
  - simpl. now f_equal.
  - discriminate.
  - now constructor.
  - simpl. lia.
  - exact Hn.
Qed.

(* ===================================================================== *)
(** * QuantityPicker *)
(* ===================================================================== *)

(** The three numeric shapes of the specification. *)

Lemma has_shape_front k w :
  has_shape k w <-> exists u f, front_text k u /\ DIGITS f /\ w = u ++ f.
Proof.
  destruct k; simpl; split.
  - intros [h [gs [f [Hh [Hl [Hg [Hf ->]]]]]]].
    exists (h ++ concat gs ++ ","), f. split; [|split; [assumption|]].
    + exists h, gs. auto.
    + now rewrite <- !app_assoc.
  - intros [u [f [[h [gs [Hh [Hl [Hg ->]]]]] [Hf ->]]]].
    exists h, gs, f. repeat split; try assumption; try apply Hh; try apply Hf.
    now rewrite <- !app_assoc.
  - intros [a [b [Ha [Hb ->]]]]. exists (a ++ ","), b.
    split; [exists a; auto|]. split; [assumption|]. now rewrite <- app_assoc.
  - intros [u [f [[a [Ha ->]] [Hf ->]]]]. exists a, f.
    split; [assumption|]. split; [assumption|]. now rewrite <- app_assoc.
  - intro H. exists [], w. auto.
  - intros [u [f [-> [Hf ->]]]]. exact Hf.
Qed.

Lemma run_alternative_front k i s :
  run (alternative k) accept i s
  = run (Seq (front k) (Plus re_d)) accept i s.
Proof. destruct k; reflexivity. Qed.

(** ** The head [\d{1,3}] and the groups [(?:\.\d{3})*] *)

Lemma Match_head_inv i s i' s' :
  Match (Range 1 3 re_d) i s i' s' ->
  exists h, DIGITS h /\ length h <= 3 /\ s = h ++ s' /\ i' = i + length h.
Proof.
  unfold Range, re_d. cbn [Times UpTo Nat.sub]. intro M.
  repeat match goal with
  | M : Match (Seq _ _) _ _ _ _ |- _ =>
      apply Match_seq_inv in M as (? & ? & ? & M)
  | M : Match (Opt _) _ _ _ _ |- _ =>
      apply Match_opt_inv in M as [M | (? & ?)]
  | M : Match Eps _ _ _ _ |- _ =>
      apply Match_eps_inv in M as (? & ?)
  | M : Match (Cls _) _ _ _ _ |- _ =>
      apply Match_cls_inv in M as (? & ? & ? & ?)
  end; subst.
  - match goal with
    | |- exists _, _ /\ _ /\ ?a :: ?b :: ?c :: _ = _ /\ _ =>
        exists [a; b; c]
    end.
    repeat split; try discriminate; simpl; try lia.
    repeat constructor; assumption.
  - match goal with
    | |- exists _, _ /\ _ /\ ?a :: ?b :: _ = _ /\ _ => exists [a; b]
    end.
    repeat split; try discriminate; simpl; try lia.
    repeat constructor; assumption.
  - match goal with
    | |- exists _, _ /\ _ /\ ?a :: _ = _ /\ _ => exists [a]
    end.
    repeat split; try discriminate; simpl; try lia.
    repeat constructor; assumption.
Qed.

Lemma Match_head h i s :
  DIGITS h -> length h <= 3 ->
  Match (Range 1 3 re_d) i (h ++ s) (i + length h) s.
Proof.
  intros [Hne Hh] Hl. unfold Range, re_d. cbn [Times UpTo Nat.sub].
  destruct h as [|a [|b [|c [|x h]]]]; try contradiction;
    simpl in Hl; try lia; simpl;
    unfold all_in in Hh;
    repeat match goal with
           | H : Forall _ (_ :: _) |- _ => inversion H; subst; clear H
           end.
  - replace (i + 1) with (S i) by lia.
    eapply M_seq; [eapply M_seq; [now constructor | constructor]|].
    apply M_alt_r. constructor.
  - replace (i + 2) with (S (S i)) by lia.
    eapply M_seq; [eapply M_seq; [now constructor | constructor]|].
    apply M_alt_l. eapply M_seq; [now constructor|].
    apply M_alt_r. constructor.
  - replace (i + 3) with (S (S (S i))) by lia.
    eapply M_seq; [eapply M_seq; [now constructor | constructor]|].
    apply M_alt_l. eapply M_seq; [now constructor|].
    apply M_alt_l. eapply M_seq; [now constructor | constructor].
Qed.

Lemma Match_triple_inv i s i' s' :
  Match re_triple i s i' s' ->
  exists g, triple g /\ s = g ++ s' /\ i' = i + 4.
Proof.
  unfold re_triple, re_d. cbn [Times]. intro M.
  repeat match goal with
  | M : Match (Chr _) _ _ _ _ |- _ =>
      apply Match_chr_inv in M as (? & ?)
  | M : Match (Seq _ _) _ _ _ _ |- _ =>
      apply Match_seq_inv in M as (? & ? & ? & M)
  | M : Match Eps _ _ _ _ |- _ =>
      apply Match_eps_inv in M as (? & ?)
  | M : Match (Cls _) _ _ _ _ |- _ =>
      apply Match_cls_inv in M as (? & ? & ? & ?)
  end; subst.
  match goal with
  | |- exists _, _ /\ _ :: ?x :: ?y :: ?z :: _ = _ /\ _ =>
      exists ["."%char; x; y; z]
  end.
  split; [|split; [reflexivity | lia]].
  do 3 eexists. split; [reflexivity|]. auto.
Qed.

Lemma Match_triple g i s :
  triple g -> Match re_triple i (g ++ s) (i + 4) s.
Proof.
  intros [x [y [z [-> [Hx [Hy Hz]]]]]]. unfold re_triple, re_d. cbn [Times].
  replace (i + 4) with (S (S (S (S i)))) by lia. simpl.
  eapply M_seq; [apply Match_chr|].
  eapply M_seq; [now constructor|].
  eapply M_seq; [now constructor|].
  eapply M_seq; [now constructor | constructor].
Qed.

Lemma Match_triples_inv i s i' s' :
  Match (Star re_triple) i s i' s' ->
  exists gs, Forall triple gs /\ s = concat gs ++ s' /\
             i' = i + length (concat gs).
Proof.
  intro M. remember (Star re_triple) as r eqn:Er.
  induction M; try discriminate; injection Er as ->.
  - exists []. repeat split; [constructor | simpl; lia].
  - destruct (IHM2 eq_refl) as [gs [Hgs [-> ->]]].
    apply Match_triple_inv in M1 as [g [Hg [-> ->]]].
    exists (g :: gs). split; [now constructor|]. simpl.
    rewrite <- app_assoc, length_app. split; [reflexivity|].
    destruct Hg as [x [y [z [-> _]]]]. simpl. lia.
Qed.

Lemma Match_triples gs i s :
  Forall triple gs ->
  Match (Star re_triple) i (concat gs ++ s) (i + length (concat gs)) s.
Proof.
  intro H. revert i. induction H as [|g gs Hg _ IH]; intro i; simpl.
  - rewrite Nat.add_0_r. constructor.
  - rewrite <- app_assoc, length_app.
    assert (L : length g = 4)
      by (destruct Hg as [x [y [z [-> _]]]]; reflexivity).
    replace (i + (length g + length (concat gs)))
      with ((i + 4) + length (concat gs)) by lia.
    eapply M_star_step; [now apply Match_triple | | apply IH].
    rewrite (length_app g). lia.
Qed.

(** ** The fronts *)

Lemma Match_front_inv k i s i' s' :
  Match (front k) i s i' s' ->
  exists u, front_text k u /\ s = u ++ s' /\ i' = i + length u.
Proof.
  destruct k; simpl; intro M.
  - apply Match_seq_inv in M as [i1 [s1 [M1 M]]].
    apply Match_seq_inv in M as [i2 [s2 [M2 M3]]].
    apply Match_head_inv in M1 as [h [Hh [Hl [-> ->]]]].
    apply (Match_triples_inv) in M2 as [gs [Hg [-> ->]]].
    apply Match_chr_inv in M3 as [-> ->].
    exists (h ++ concat gs ++ ","). split; [exists h, gs; auto|].
    rewrite <- !app_assoc, !length_app. simpl. split; [reflexivity | lia].
  - apply Match_seq_inv in M as [i1 [s1 [M1 M2]]].
    unfold re_d in M1.
    apply Match_plus_cls_inv in M1 as [a [Hne [Ha [-> ->]]]].
    apply Match_chr_inv in M2 as [-> ->].
    exists (a ++ ","). split; [exists a; split; [now split | reflexivity]|].
    rewrite <- !app_assoc, !length_app. simpl. split; [reflexivity | lia].
  - apply Match_eps_inv in M as [-> ->]. exists []. simpl.
    repeat split. lia.
Qed.

Lemma Match_front k u i s :
  front_text k u -> Match (front k) i (u ++ s) (i + length u) s.
Proof.
  destruct k; simpl.
  - intros [h [gs [Hh [Hl [Hg ->]]]]].
    rewrite <- !app_assoc, !length_app. simpl.
    replace (i + (length h + (length (concat gs) + 1)))
      with (S (i + length h + length (concat gs))) by lia.
    eapply M_seq; [now apply Match_head|].
    eapply M_seq; [now apply Match_triples | apply Match_chr].
  - intros [a [[Hne Ha] ->]].
    rewrite <- !app_assoc, !length_app. simpl.
    replace (i + (length a + 1)) with (S (i + length a)) by lia.
    eapply M_seq; [now apply (Match_plus_cls isdecimal) | apply Match_chr].
  - intros ->. simpl. rewrite Nat.add_0_r. constructor.
Qed.

Lemma Match_alternative k w i s :
  has_shape k w -> Match (alternative k) i (w ++ s) (i + length w) s.
Proof.
  intro H. apply has_shape_front in H as [u [f [Hu [[Hne Hf] ->]]]].
  rewrite <- app_assoc, length_app, Nat.add_assoc.
  pose proof (Match_front k u i (f ++ s) Hu) as M1.
  pose proof (Match_plus_cls isdecimal f (i + length u) s Hne Hf) as M2.
  destruct k; simpl in *.
  - apply Match_seq_inv in M1 as [i1 [s1 [A M1]]].
    apply Match_seq_inv in M1 as [i2 [s2 [B C]]].
    unfold QTY_GROUPED. eauto.
  - apply Match_seq_inv in M1 as [i1 [s1 [A B]]].
    unfold QTY_DECIMAL. eauto.
  - subst u. simpl in *. rewrite ?Nat.add_0_r in *. exact M2.
Qed.

Lemma Match_QTY_RE k w i s :
  has_shape k w -> Match QTY_RE i (w ++ s) (i + length w) s.
Proof.
  intro H. apply (Match_alternative k w i s) in H. unfold QTY_RE.
  destruct k; simpl in H; auto.
Qed.

(** ** What the matcher returns for one alternative *)

Lemma run_alternative_some k i s j :
  run (alternative k) accept i s = Some j ->
  exists w post,
    s = w ++ post /\ j = i + length w /\ has_shape k w /\
    not_starting isdecimal post.
Proof.
  rewrite run_alternative_front, run_seq. intro H.
  apply run_sound in H as [i1 [s1 [M H]]].
  apply Match_front_inv in M as [u [Hu [-> ->]]].
  apply plus_cls_greedy in H as [f [post [-> [Hne [Hf [-> Hn]]]]]].
  exists (u ++ f), post.
  split; [now rewrite app_assoc|].
  split; [rewrite length_app; lia|].
  split; [|exact Hn].
  apply has_shape_front. exists u, f. repeat split; assumption.
Qed.

Lemma run_alternative_none k i s :
  run (alternative k) accept i s = None ->
  forall w post, s = w ++ post -> ~ has_shape k w.
Proof.
  intros H w post -> Hw.
  pose proof (Match_alternative k w i post Hw) as M.
  pose proof (run_none nat (alternative k) accept i (w ++ post) H _ _ M) as N.
  discriminate.
Qed.

(** ** The longest text of a shape at a position *)

Lemma first_occurrence_unique (x : ascii) (a b a' b' : str) :
  a ++ x :: b = a' ++ x :: b' -> ~ In x a -> ~ In x a' ->
  a = a' /\ b = b'.
Proof.
  revert a'. induction a as [|c a IH]; intros [|c' a'] E Ha Ha'; simpl in *.
  - injection E as <-. auto.
  - injection E as <- _. exfalso. apply Ha'. now left.
  - injection E as -> _. exfalso. apply Ha. now left.
  - injection E as <- E.
    destruct (IH a' E) as [-> ->]; [tauto | tauto | auto].
Qed.

Lemma digits_run_longest (f post f' post' : str) :
  f ++ post = f' ++ post' -> all_in isdecimal f' ->
  not_starting isdecimal post -> length f' <= length f.
Proof.
  revert f'. induction f as [|c f IH]; intros [|c' f'] E Hf' Hn; simpl in *;
    try lia.
  - inversion Hf' as [|? ? Hc _]; subst.
    rewrite (Hn c' (f' ++ post') eq_refl) in Hc. discriminate.
  - injection E as <- E. inversion Hf'; subst.
    specialize (IH f' E). apply le_n_S. auto.
Qed.

Lemma all_in_no_comma (w : str) : all_in isdecimal w -> ~ In ","%char w.
Proof.
  intros H Hin. unfold all_in in H. rewrite Forall_forall in H.
  apply H in Hin. discriminate.
Qed.

Lemma triples_no_comma gs : Forall triple gs -> ~ In ","%char (concat gs).
Proof.
  induction 1 as [|g gs Hg _ IH]; simpl; [tauto|].
  intro Hin. apply in_app_or in Hin as [Hin|Hin]; [|tauto].
  destruct Hg as [x [y [z [-> [Hx [Hy Hz]]]]]].
  simpl in Hin.
  destruct Hin as [E|[E|[E|[E|[]]]]]; try discriminate; subst;
    discriminate.
Qed.

(** A front is empty or ends with the only comma it has. *)
Lemma front_text_comma k u :
  front_text k u ->
  u = [] \/ exists u0, u = u0 ++ "," /\ ~ In ","%char u0.
Proof.
  destruct k; simpl.
  - intros [h [gs [[_ Hh] [_ [Hg ->]]]]]. right.
    exists (h ++ concat gs). split; [now rewrite <- app_assoc|].
    intro Hin. apply in_app_or in Hin as [Hin|Hin].
    + now apply all_in_no_comma in Hh.
    + now apply triples_no_comma in Hg.
  - intros [a [[_ Ha] ->]]. right. exists a. split; [reflexivity|].
    now apply all_in_no_comma.
  - auto.
Qed.

Lemma front_text_empty k : front_text k [] -> k = Integer.
Proof.
  destruct k; simpl; [| |reflexivity].
  - intros [h [gs [_ [_ [_ E]]]]].
    destruct h; [destruct (concat gs)|]; discriminate.
  - intros [a [_ E]]. destruct a; discriminate.
Qed.

Lemma shape_longest k w post w' post' :
  has_shape k w -> not_starting isdecimal post ->
  has_shape k w' -> w ++ post = w' ++ post' ->
  length w' <= length w.
Proof.
  intros H Hn H' E.
  apply has_shape_front in H as [u [f [Hu [[_ Hf] ->]]]].
  apply has_shape_front in H' as [u' [f' [Hu' [[_ Hf'] ->]]]].
  rewrite <- !app_assoc in E.
  assert (Eu : u = u' /\ f ++ post = f' ++ post').
  { destruct (front_text_comma k u Hu) as [->|[u0 [-> N0]]];
      destruct (front_text_comma k u' Hu') as [->|[u0' [-> N0']]].
    - auto.
    - apply front_text_empty in Hu. subst k. simpl in Hu'.
      destruct u0'; discriminate.
    - apply front_text_empty in Hu'. subst k. simpl in Hu.
      destruct u0; discriminate.
    - rewrite <- !app_assoc in E. simpl in E.
      destruct (first_occurrence_unique _ _ _ _ _ E N0 N0') as [-> ->].
      auto. }
  destruct Eu as [<- E2]. rewrite !length_app.
  pose proof (digits_run_longest f post f' post' E2 Hf' Hn). lia.
Qed.

(** ** The match at a position, and the search *)

Lemma run_QTY_RE_none i s : run QTY_RE accept i s = None -> no_number_at s.
Proof.
  intros H k w [post ->] Hw.
  pose proof (Match_QTY_RE k w i post Hw) as M.
  pose proof (run_none nat QTY_RE accept i (w ++ post) H _ _ M) as N.
  discriminate.
Qed.

Lemma run_QTY_RE_some i s j :
  run QTY_RE accept i s = Some j ->
  exists w, j = i + length w /\ best_at s w.
Proof.
  unfold QTY_RE. rewrite !run_alt.
  change QTY_GROUPED with (alternative Grouped).
  change QTY_DECIMAL with (alternative Decimal).
  change QTY_INTEGER with (alternative Integer).
  destruct (run (alternative Grouped) accept i s) as [j1|] eqn:E1;
    [|destruct (run (alternative Decimal) accept i s) as [j2|] eqn:E2];
    intro H.
  - injection H as <-.
    apply run_alternative_some in E1 as [w [post [-> [-> [Hw Hn]]]]].
    exists w. split; [reflexivity|]. split; [now exists post|].
    exists Grouped. split; [assumption|]. split.
    + intros k' w' Hp. simpl in Hp. lia.
    + intros w' [post' E] Hw'. eapply shape_longest; eauto.
  - injection H as <-.
    apply run_alternative_some in E2 as [w [post [-> [-> [Hw Hn]]]]].
    exists w. split; [reflexivity|]. split; [now exists post|].
    exists Decimal. split; [assumption|]. split.
    + intros k' w' Hp [post' E]. destruct k'; simpl in Hp; try lia.
      eapply run_alternative_none; eauto.
    + intros w' [post' E] Hw'. eapply shape_longest; eauto.
  - apply run_alternative_some in H as [w [post [-> [-> [Hw Hn]]]]].
    exists w. split; [reflexivity|]. split; [now exists post|].
    exists Integer. split; [assumption|]. split.
    + intros k' w' Hp [post' E]. destruct k'; simpl in Hp; try lia.
      * eapply run_alternative_none; eauto.
      * eapply run_alternative_none; eauto.
    + intros w' [post' E] Hw'. eapply shape_longest; eauto.
Qed.

Lemma search_quantity_spec joined :
  first_number joined (search_quantity joined).
Proof.
  unfold search_quantity, re_search.
  pose proof (search_from_spec QTY_RE joined 0) as S.
  destruct (search_from QTY_RE 0 joined) as [[a b]|].
  - right. destruct S as [pre [post [-> [-> [Hr Hn]]]]].
    apply run_QTY_RE_some in Hr as [w [-> Hb]].
    destruct Hb as [[post' ->] Hk].
    simpl. rewrite group_slice.
    exists pre, post'. split; [reflexivity|]. split.
    + intros p1 p2 Ep Hne.
      exact (run_QTY_RE_none _ _ (Hn p1 p2 Ep Hne)).
    + split; [now exists post' | exact Hk].
  - left. split; [reflexivity|].
    intros pre s E. exact (run_QTY_RE_none _ _ (S pre s E)).
Qed.

(** ** The not-available marker *)

Lemma list_eqb_N_eq (a b : list N) : list_eqb N.eqb a b = true <-> a = b.
Proof.
  revert b. induction a as [|x a IH]; intros [|y b]; simpl; split; intro H;
    try reflexivity; try discriminate.
  - apply andb_true_iff in H as [H1 H2].
    apply N.eqb_eq in H1. apply IH in H2. congruence.
  - injection H as -> ->. rewrite N.eqb_refl. simpl. now apply IH.
Qed.

Lemma upper_char_hit c n rest :
  upper_char c = n :: rest -> In n [35; 78; 47; 68]%N ->
  rest = [] /\ In (n, c) ND_letters.
Proof.
  destruct c as [[] [] [] [] [] [] [] []]; vm_compute;
    intros E Hin; inversion E; subst; clear E;
    (destruct Hin as [H|[H|[H|[H|[]]]]]; try discriminate H);
    (split; [reflexivity | repeat (try (left; reflexivity); right)]).
Qed.

Lemma upper_char_nonempty c : exists n rest, upper_char c = n :: rest.
Proof.
  unfold upper_char.
  repeat match goal with
         | |- context [if ?b then _ else _] => destruct b
         end; eauto.
Qed.

Lemma upper_cons_inv c q n l :
  upper (c :: q) = n :: l -> In n [35; 78; 47; 68]%N ->
  upper q = l /\ In (n, c) ND_letters.
Proof.
  unfold upper. simpl. fold (upper q). intros E Hin.
  destruct (upper_char_nonempty c) as [m [rest Ec]].
  rewrite Ec in E. simpl in E. injection E as -> E.
  destruct (upper_char_hit c n rest Ec Hin) as [-> Ht].
  simpl in E. auto.
Qed.

Lemma upper_nil_inv q : upper q = [] -> q = [].
Proof.
  destruct q as [|c q]; [reflexivity|]. unfold upper. simpl.
  destruct (upper_char_nonempty c) as [m [rest ->]]. discriminate.
Qed.

Lemma upper_eqb_ND q : upper_eqb q "#N/D" = true <-> is_ND q.
Proof.
  unfold upper_eqb. rewrite list_eqb_N_eq. split.
  - intro H. change (code_points "#N/D") with [35; 78; 47; 68]%N in H.
    destruct q as [|c1 [|c2 [|c3 [|c4 q]]]];
      try (vm_compute in H; discriminate H).
    + apply upper_cons_inv in H as [H H1]; [|simpl; tauto].
      discriminate H.
    + apply upper_cons_inv in H as [H H1]; [|simpl; tauto].
      apply upper_cons_inv in H as [H H2]; [|simpl; tauto].
      discriminate H.
    + apply upper_cons_inv in H as [H H1]; [|simpl; tauto].
      apply upper_cons_inv in H as [H H2]; [|simpl; tauto].
      apply upper_cons_inv in H as [H H3]; [|simpl; tauto].
      discriminate H.
    + apply upper_cons_inv in H as [H H1]; [|simpl; tauto].
      apply upper_cons_inv in H as [H H2]; [|simpl; tauto].
      apply upper_cons_inv in H as [H H3]; [|simpl; tauto].
      apply upper_cons_inv in H as [H H4]; [|simpl; tauto].
      apply upper_nil_inv in H. subst q.
      unfold is_ND. simpl in H1, H2, H3, H4.
      repeat match goal with
             | H : _ \/ _ |- _ => destruct H as [H|H]
             | H : (_, _) = (_, _) |- _ =>
                 first [discriminate H | injection H as ?; subst]
             | H : False |- _ => destruct H
             end; tauto.
  - intros [-> | [-> | [-> | ->]]]; reflexivity.
Qed.

Lemma decimal_upper_char c :
  isdecimal c = true ->
  upper_char c = [code_point c] /\ code_point c <> 35%N.
Proof.
  destruct c as [[] [] [] [] [] [] [] []]; vm_compute; intro H;
    try discriminate H; (split; [reflexivity | discriminate]).
Qed.

Lemma decimal_head_not_ND c w :
  isdecimal c = true -> upper_eqb (c :: w) "#N/D" = false.
Proof.
  intro H. destruct (decimal_upper_char c H) as [E N].
  unfold upper_eqb, upper. simpl. rewrite E. simpl.
  apply N.eqb_neq in N. now rewrite N.
Qed.

(** ** The contract of [pick_quantity_from_row] *)

Lemma pick_quantity_unfold cells :
  pick_quantity_from_row cells =
  if (3 <=? length cells)
     && negb (is_empty (norm (nth 2 cells "")))
     && negb (upper_eqb (norm (nth 2 cells "")) "#N/D")
  then norm (nth 2 cells "")
  else search_quantity (join " " cells).
Proof.
  unfold pick_quantity_from_row, search_quantity.
  destruct (3 <=? length cells); [|reflexivity].
  destruct (is_empty _); [reflexivity|].
  destruct (upper_eqb _ _); reflexivity.
Qed.

Lemma third_cell_usable_dec cells :
  (3 <=? length cells)
  && negb (is_empty (norm (nth 2 cells "")))
  && negb (upper_eqb (norm (nth 2 cells "")) "#N/D") = true
  <-> third_cell_usable cells.
Proof.
  unfold third_cell_usable.
  rewrite !andb_true_iff, !negb_true_iff, Nat.leb_le, is_empty_false.
  rewrite <- upper_eqb_ND. rewrite not_true_iff_false. tauto.
Qed.

(** C3. [pick_quantity_from_row] returns the normalized third cell when the
    row has at least three cells and that cell is neither empty nor "#N/D"
    in any letter case.  Otherwise it joins the cells with single spaces
    and returns the first number of the joined text: at the leftmost
    position where a thousands-grouped decimal, a comma decimal or a run of
    digits starts, the text of the first of these three shapes that fits
    there, as long as possible; and the empty string when no position
    starts a number.  It always returns a string. *)
Theorem QuantityPicker_contract :
  (forall cells,
     (third_cell_usable cells /\
      pick_quantity_from_row cells = norm (nth 2 cells "")) \/
     (~ third_cell_usable cells /\
      first_number (join " " cells) (pick_quantity_from_row cells))) /\
  pick_quantity_from_row ["17.1"; "un"; " 1.234,56 "] = "1.234,56" /\
  pick_quantity_from_row ["17.1"; "un"; "#n/d"; "x 1.234,56 y"] = "17" /\
  pick_quantity_from_row ["x"; "total 1.234,56 kg"] = "1.234,56" /\
  pick_quantity_from_row ["x"; "10,5"] = "10,5" /\
  pick_quantity_from_row ["x"; "1234,5"] = "1234,5" /\
  pick_quantity_from_row ["x"; "5 e 1.234,56"] = "5" /\
  pick_quantity_from_row ["x"; "y"; ""] = "".
Proof.
  split; [|repeat split].
  intro cells. rewrite pick_quantity_unfold.
  destruct ((3 <=? length cells)
            && negb (is_empty (norm (nth 2 cells "")))
            && negb (upper_eqb (norm (nth 2 cells "")) "#N/D")) eqn:E.
  - left. split; [now apply third_cell_usable_dec | reflexivity].
  - right. split; [|apply search_quantity_spec].
    intro H. apply (proj2 (third_cell_usable_dec cells)) in H.
    discriminate (eq_trans (eq_sym H) E).
Qed.

(* ===================================================================== *)
(** * The quantity of a row with a valid code *)
(* ===================================================================== *)

Lemma In_strip c s : In c (strip s) -> In c s.
Proof.
  intro H. destruct (strip_split s) as [w1 [w2 [_ [_ E]]]].
  rewrite E. apply in_or_app. right. apply in_or_app. now left.
Qed.

Lemma In_norm c s : In c (norm s) -> c <> " "%char -> In c s.
Proof.
  unfold norm. intros H Hc. apply In_strip in H.
  rewrite replace_char_by_char in H.
  apply in_map_iff in H as [x [E Hx]].
  destruct (Ascii.eqb NBSP x); [congruence | now subst].
Qed.

Lemma has_shape_head k w :
  has_shape k w -> exists c w', w = c :: w' /\ isdecimal c = true.
Proof.
  assert (D : forall a t, DIGITS a ->
                exists c w', a ++ t = c :: w' /\ isdecimal c = true).
  { intros a t [Hne Ha]. destruct Ha as [|c a Hc _]; [contradiction|].
    exists c, (a ++ t). auto. }
  destruct k; simpl.
  - intros [h [gs [f [Hh [_ [_ [_ ->]]]]]]]. now apply D.
  - intros [a [b [Ha [_ ->]]]]. now apply D.
  - intro H. destruct (D w [] H) as [c [w' [E Hc]]].
    rewrite app_nil_r in E. eauto.
Qed.

Lemma code_has_decimal code :
  code_re_matches code = true -> exists c, In c code /\ isdecimal c = true.
Proof.
  intro H. apply code_re_sound in H as [w1 [t [w2 [_ [_ [G ->]]]]]].
  destruct G as [a [[Hne Ha] Ht]].
  destruct Ha as [|c a Hc _]; [contradiction|].
  exists c. split; [|assumption].
  apply in_or_app. right. apply in_or_app. left.
  destruct Ht as [->|[b [_ ->]]]; simpl; auto.
Qed.

Lemma join_starts sep x l : exists rest, join sep (x :: l) = x ++ rest.
Proof.
  destruct l as [|y l]; simpl.
  - exists []. now rewrite app_nil_r.
  - eauto.
Qed.

Lemma search_quantity_found joined c :
  In c joined -> isdecimal c = true ->
  exists d w, search_quantity joined = d :: w /\ isdecimal d = true.
Proof.
  intros Hin Hc.
  destruct (search_quantity_spec joined) as [[_ Hn]|[pre [post [_ [_ Hb]]]]].
  - exfalso. apply in_split in Hin as [pre [post E]].
    apply (Hn pre (c :: post) E Integer [c]).
    + now exists post.
    + split; [discriminate | now repeat constructor].
  - destruct Hb as [_ [k [Hk _]]]. now apply has_shape_head in Hk.
Qed.

Lemma pick_quantity_valid_code cell0 others :
  code_re_matches (norm cell0) = true ->
  pick_quantity_from_row (cell0 :: others) <> "" /\
  upper_eqb (pick_quantity_from_row (cell0 :: others)) "#N/D" = false.
Proof.
  intro H. rewrite pick_quantity_unfold.
  destruct ((3 <=? length (cell0 :: others)) && _ && _) eqn:E.
  - apply andb_true_iff in E as [E E3].
    apply andb_true_iff in E as [_ E2].
    apply negb_true_iff in E2, E3. split; [|exact E3].
    now apply is_empty_false.
  - apply code_has_decimal in H as [c [Hin Hc]].
    assert (Hc0 : In c cell0).
    { apply In_norm; [assumption|]. intros ->. discriminate. }
    destruct (join_starts " " cell0 others) as [rest Ej].
    destruct (search_quantity_found (join " " (cell0 :: others)) c)
      as [d [w [Es Hd]]]; [rewrite Ej; apply in_or_app; now left | assumption|].
    rewrite Es. split; [discriminate | now apply decimal_head_not_ND].
Qed.

Lemma extract_row_no_qty_skip t_i r_i r st :
  Forall (fun x => ~ qty_skip x) (logs st) ->
  Forall (fun x => ~ qty_skip x) (logs (extract_row t_i r_i r st)).
Proof.
  intro H. unfold extract_row.
  destruct (map norm r) as [|cell0 cells] eqn:Em.
  - simpl. apply Forall_app. split; [assumption|].
    repeat constructor. discriminate.
  - destruct (is_empty (norm cell0) || upper_eqb (norm cell0) "#N/D").
    { simpl. apply Forall_app. split; [assumption|].
      repeat constructor. discriminate. }
    destruct (code_re_matches (norm cell0)) eqn:Ec; simpl.
    + destruct (pick_quantity_valid_code cell0 cells Ec) as [Hne Hnd].
      apply is_empty_false in Hne. rewrite Hne, Hnd. simpl. assumption.
    + apply Forall_app. split; [assumption|].
      repeat constructor. discriminate.
Qed.

Lemma extract_rows_no_qty_skip rows :
  forall t_i r_i st,
    Forall (fun x => ~ qty_skip x) (logs st) ->
    Forall (fun x => ~ qty_skip x) (logs (extract_rows t_i r_i rows st)).
Proof.
  induction rows as [|r rows IH]; intros t_i r_i st H; simpl; [assumption|].
  apply IH. now apply extract_row_no_qty_skip.
Qed.

Lemma extract_tables_no_qty_skip ts :
  forall t_i st,
    Forall (fun x => ~ qty_skip x) (logs st) ->
    Forall (fun x => ~ qty_skip x) (logs (extract_tables t_i ts st)).
Proof.
  induction ts as [|t ts IH]; intros t_i st H; simpl; [assumption|].
  apply IH. unfold extract_table.
  destruct (negb (is_itens_table t)); [assumption|].
  now apply extract_rows_no_qty_skip.
Qed.

(** C9. For a row whose first cell, normalized, passes [CODE_RE], the
    quantity picked is neither empty nor the marker "#N/D": the joined
    text contains the digits of the code, so the search finds a number.
    Hence no document makes [extract_code_qty] log the reason
    "skip_qty_empty_or_ND". *)
Theorem qty_skip_unreachable :
  (forall cell0 others,
     code_re_matches (norm cell0) = true ->
     pick_quantity_from_row (cell0 :: others) <> "" /\
     ~ is_ND (pick_quantity_from_row (cell0 :: others))) /\
  (forall doc r,
     In r (ignored_details (snd (extract_code_qty doc))) ->
     reason r <> "skip_qty_empty_or_ND").
Proof.
  split.
  - intros cell0 others H.
    destruct (pick_quantity_valid_code cell0 others H) as [Hne Hnd].
    split; [assumption|]. intro N. apply upper_eqb_ND in N. congruence.
  - intros doc r Hin. unfold extract_code_qty in Hin. simpl in Hin.
    pose proof (extract_tables_no_qty_skip doc 1
                  {| results := []; logs := []; itens_tables := 0 |}
                  (Forall_nil _)) as F.
    rewrite Forall_forall in F. exact (F r Hin).
Qed.

Lemma qty_skip_unreachable_witness :
  pick_quantity_from_row ["17.1"; "un"; "#N/D"] <> "" /\
  ~ is_ND (pick_quantity_from_row ["17.1"; "un"; "#N/D"]).
Proof.
  apply (proj1 qty_skip_unreachable "17.1" ["un"; "#N/D"]). reflexivity.
Defined.

(** ** The rows that are emitted *)

Lemma strip_norm s : strip (norm s) = norm s.
Proof. unfold norm. apply strip_idempotent. Qed.

Lemma has_shape_no_space_ends k w : has_shape k w -> no_space_ends w.
Proof.
  intro H. split.
  - intros c t' E. destruct (has_shape_head k w H) as [x [w' [Ew Hx]]].
    rewrite Ew in E. injection E as -> _. now apply decimal_not_space.
  - intros t' c E.
    apply has_shape_front in H as [u [f [_ [Hf Ew]]]].
    apply decimal_not_space. apply (DIGITS_last u f t' c Hf). congruence.
Qed.

Lemma strip_search_quantity joined :
  strip (search_quantity joined) = search_quantity joined.
Proof.
  destruct (search_quantity_spec joined) as [[-> _]|[pre [post [_ [_ Hb]]]]];
    [reflexivity|].
  destruct Hb as [_ [k [Hk _]]].
  pose proof (strip_between [] (search_quantity joined) []) as E.
  simpl in E. rewrite app_nil_r in E.
  apply E; try constructor; now apply (has_shape_no_space_ends k).
Qed.

Lemma strip_pick_quantity cells :
  strip (pick_quantity_from_row cells) = pick_quantity_from_row cells.
Proof.
  rewrite pick_quantity_unfold.
  destruct (_ && _ && _); [apply strip_norm | apply strip_search_quantity].
Qed.

Lemma extract_row_emits t_i r_i r st :
  Forall extracted_row (results st) ->
  Forall extracted_row (results (extract_row t_i r_i r st)).
Proof.
  intro H. unfold extract_row.
  destruct (map norm r) as [|cell0 cells]; [exact H|].
  destruct (is_empty (norm cell0) || upper_eqb (norm cell0) "#N/D");
    [exact H|].
  destruct (code_re_matches (norm cell0)) eqn:Ec; simpl; [|exact H].
  destruct (is_empty (pick_quantity_from_row (cell0 :: cells))) eqn:Ee;
    simpl; [exact H|].
  destruct (upper_eqb (pick_quantity_from_row (cell0 :: cells)) "#N/D")
    eqn:En; simpl; [exact H|].
  apply Forall_app. split; [exact H|]. constructor; [|constructor].
  unfold extracted_row. simpl.
  rewrite strip_norm, strip_pick_quantity, strip_norm, strip_pick_quantity.
  split; [exact Ec|]. split; [reflexivity|].
  split; [now apply is_empty_false|]. split; [|reflexivity].
  intro N. apply upper_eqb_ND in N. congruence.
Qed.

Lemma extract_rows_emit rows :
  forall t_i r_i st,
    Forall extracted_row (results st) ->
    Forall extracted_row (results (extract_rows t_i r_i rows st)).
Proof.
  induction rows as [|r rows IH]; intros t_i r_i st H; simpl; [assumption|].
  apply IH. now apply extract_row_emits.
Qed.

Lemma extract_tables_emit ts :
  forall t_i st,
    Forall extracted_row (results st) ->
    Forall extracted_row (results (extract_tables t_i ts st)).
Proof.
  induction ts as [|t ts IH]; intros t_i st H; simpl; [assumption|].
  apply IH. unfold extract_table.
  destruct (negb (is_itens_table t)); [assumption|].
  now apply extract_rows_emit.
Qed.

(** Every accepted row has a code of the grammar and a quantity that is
    neither empty nor the marker, both without white space around them. *)
Lemma extract_code_qty_emits doc :
  Forall extracted_row (fst (extract_code_qty doc)).
Proof.
  unfold extract_code_qty. simpl. apply extract_tables_emit. constructor.
Qed.

(* ===================================================================== *)
(** * The order of the keys *)
(* ===================================================================== *)

Section LexOrder.
Variable T : Type.
Variables eqb ltb : T -> T -> bool.
Hypothesis O : strict_total eqb ltb.

Lemma eqb_refl_of x : eqb x x = true.
Proof. now apply (st_eqb O). Qed.

Lemma eqb_false_of x y : eqb x y = false <-> x <> y.
Proof.
  split.
  - intros H E. apply (st_eqb O) in E. congruence.
  - intro H. destruct (eqb x y) eqn:E; [|reflexivity].
    apply (st_eqb O) in E. contradiction.
Qed.

Lemma lex_eqb_spec a b : list_eqb eqb a b = true <-> a = b.
Proof.
  revert b. induction a as [|x a IH]; intros [|y b]; simpl; split; intro H;
    try reflexivity; try discriminate.
  - apply andb_true_iff in H as [H1 H2].
    apply (st_eqb O) in H1. apply IH in H2. congruence.
  - injection H as -> ->. rewrite eqb_refl_of. simpl. now apply IH.
Qed.

Lemma lex_irrefl a : lex_ltb eqb ltb a a = false.
Proof.
  induction a as [|x a IH]; simpl; [reflexivity|].
  now rewrite eqb_refl_of.
Qed.

Lemma lex_trans a :
  forall b c, lex_ltb eqb ltb a b = true -> lex_ltb eqb ltb b c = true ->
              lex_ltb eqb ltb a c = true.
Proof.
  induction a as [|x a IH]; intros [|y b] [|z c]; simpl; intros H1 H2;
    try discriminate; try reflexivity.
  destruct (eqb x y) eqn:Exy; destruct (eqb y z) eqn:Eyz.
  - apply (st_eqb O) in Exy, Eyz. subst. rewrite eqb_refl_of. eauto.
  - apply (st_eqb O) in Exy. subst. now rewrite Eyz.
  - apply (st_eqb O) in Eyz. subst. now rewrite Exy.
  - pose proof (st_trans O _ _ _ H1 H2) as H3.
    destruct (eqb x z) eqn:Exz; [|assumption].
    apply (st_eqb O) in Exz. subst.
    rewrite (st_irrefl O) in H3. discriminate.
Qed.

Lemma lex_total a :
  forall b, lex_ltb eqb ltb a b = false -> lex_ltb eqb ltb b a = false ->
            a = b.
Proof.
  induction a as [|x a IH]; intros [|y b]; simpl; intros H1 H2;
    try discriminate; try reflexivity.
  destruct (eqb x y) eqn:Exy.
  - apply (st_eqb O) in Exy. subst. rewrite eqb_refl_of in H2.
    f_equal. now apply IH.
  - destruct (eqb y x) eqn:Eyx.
    + apply (st_eqb O) in Eyx. subst. rewrite eqb_refl_of in Exy.
      discriminate.
    + apply eqb_false_of in Exy. exfalso. apply Exy.
      now apply (st_total O).
Qed.

Lemma lex_strict_total : strict_total (list_eqb eqb) (lex_ltb eqb ltb).
Proof.
  constructor.
  - exact lex_eqb_spec.
  - exact lex_irrefl.
  - exact lex_trans.
  - exact lex_total.
Qed.
End LexOrder.

Lemma code_point_inj x y : code_point x = code_point y -> x = y.
Proof.
  unfold code_point. intro H.
  rewrite <- (ascii_N_embedding x), <- (ascii_N_embedding y). now f_equal.
Qed.

Lemma char_strict_total : strict_total Ascii.eqb char_ltb.
Proof.
  unfold char_ltb. constructor.
  - apply Ascii.eqb_eq.
  - intro x. apply N.ltb_irrefl.
  - intros x y z H1 H2. apply N.ltb_lt in H1, H2. apply N.ltb_lt. lia.
  - intros x y H1 H2. apply N.ltb_ge in H1, H2. apply code_point_inj. lia.
Qed.

Lemma str_strict_total : strict_total str_eqb str_ltb.
Proof. exact (lex_strict_total _ _ _ char_strict_total). Qed.

Lemma elem_strict_total : strict_total elem_eqb elem_ltb.
Proof.
  pose proof str_strict_total as S. constructor.
  - intros [a|a] [b|b]; simpl; split; intro H; try discriminate.
    + apply Z.eqb_eq in H. now subst.
    + injection H as ->. apply Z.eqb_refl.
    + apply (st_eqb S) in H. now subst.
    + injection H as ->. now apply (st_eqb S).
  - intros [a|a]; simpl; [apply Z.ltb_irrefl | apply (st_irrefl S)].
  - intros [a|a] [b|b] [c|c]; simpl; intros H1 H2;
      try discriminate; try reflexivity.
    + apply Z.ltb_lt in H1, H2. apply Z.ltb_lt. lia.
    + exact (st_trans S _ _ _ H1 H2).
  - intros [a|a] [b|b]; simpl; intros H1 H2; try discriminate.
    + apply Z.ltb_ge in H1, H2. f_equal. lia.
    + f_equal. now apply (st_total S).
Qed.

Lemma key_strict_total : strict_total (list_eqb elem_eqb) key_ltb.
Proof. exact (lex_strict_total _ _ _ elem_strict_total). Qed.

(* ===================================================================== *)
(** * Sorting by key *)
(* ===================================================================== *)

Section SortFacts.
Variables K V : Type.
Variables eqb ltb : K -> K -> bool.
Hypothesis O : strict_total eqb ltb.

Lemma ltb_asym a b : ltb a b = true -> ltb b a = false.
Proof.
  intro H. destruct (ltb b a) eqn:E; [|reflexivity].
  pose proof (st_trans O _ _ _ H E) as T0.
  rewrite (st_irrefl O) in T0. discriminate.
Qed.

Lemma key_le_trans (x y z : K * V) :
  key_le ltb x y -> key_le ltb y z -> key_le ltb x z.
Proof.
  unfold key_le. intros H1 H2.
  destruct (ltb (fst z) (fst x)) eqn:E; [|reflexivity].
  destruct (ltb (fst x) (fst y)) eqn:Exy.
  - pose proof (st_trans O _ _ _ E Exy). congruence.
  - pose proof (st_total O _ _ Exy H1) as Eq. rewrite Eq in E. congruence.
Qed.

Lemma insert_by_perm (x : K * V) l :
  Permutation (x :: l) (insert_by ltb x l).
Proof.
  induction l as [|y l IH]; simpl; [reflexivity|].
  destruct (ltb (fst y) (fst x)); [|reflexivity].
  rewrite perm_swap. now constructor.
Qed.

Lemma sort_by_perm (l : list (K * V)) : Permutation l (sort_by ltb l).
Proof.
  induction l as [|x l IH]; simpl; [reflexivity|].
  rewrite <- insert_by_perm. now constructor.
Qed.

Lemma insert_by_sorted (x : K * V) l :
  StronglySorted (key_le ltb) l ->
  StronglySorted (key_le ltb) (insert_by ltb x l).
Proof.
  induction 1 as [|y l Hs IH Hy]; simpl.
  - repeat constructor.
  - destruct (ltb (fst y) (fst x)) eqn:E.
    + constructor; [assumption|].
      rewrite Forall_forall in *. intros z Hz.
      apply (Permutation_in _ (Permutation_sym (insert_by_perm x l))) in Hz.
      destruct Hz as [<-|Hz]; [|auto].
      unfold key_le. now apply ltb_asym.
    + constructor; [now constructor|].
      constructor; [exact E|].
      rewrite Forall_forall in *. intros z Hz.
      apply key_le_trans with y; [exact E | auto].
Qed.

Lemma sort_by_sorted (l : list (K * V)) :
  StronglySorted (key_le ltb) (sort_by ltb l).
Proof.
  induction l as [|x l IH]; simpl; [constructor|].
  now apply insert_by_sorted.
Qed.

(** Two sorted arrangements of values with distinct keys are equal. *)
Lemma sorted_unique (l1 : list (K * V)) :
  forall l2,
    Permutation l1 l2 -> NoDup (map fst l1) ->
    StronglySorted (key_le ltb) l1 -> StronglySorted (key_le ltb) l2 ->
    l1 = l2.
Proof.
  induction l1 as [|x t1 IH]; intros l2 P N S1 S2.
  - apply Permutation_nil in P. now subst.
  - destruct l2 as [|y t2];
      [apply Permutation_sym, Permutation_nil in P; discriminate|].
    assert (E : x = y).
    { assert (Hx : In x (y :: t2))
        by (apply (Permutation_in _ P); now left).
      assert (Hy : In y (x :: t1))
        by (apply (Permutation_in _ (Permutation_sym P)); now left).
      destruct Hx as [Hx|Hx]; [now subst|].
      destruct Hy as [Hy|Hy]; [now subst|].
      exfalso.
      inversion S1 as [|? ? _ F1]; subst.
      inversion S2 as [|? ? _ F2]; subst.
      rewrite Forall_forall in F1, F2.
      pose proof (F1 y Hy) as L1. pose proof (F2 x Hx) as L2.
      unfold key_le in L1, L2.
      pose proof (st_total O _ _ L2 L1) as Ek.
      simpl in N. inversion N as [|? ? Nx _]; subst.
      apply Nx. rewrite Ek. now apply in_map. }
    subst y. f_equal.
    apply Permutation_cons_inv in P.
    simpl in N. inversion N; subst.
    inversion S1; subst. inversion S2; subst.
    now apply IH.
Qed.

Lemma sort_by_unique (l l' : list (K * V)) :
  Permutation l l' -> NoDup (map fst l) ->
  sort_by ltb l = sort_by ltb l'.
Proof.
  intros P N. apply sorted_unique.
  - rewrite <- (sort_by_perm l), <- (sort_by_perm l'). exact P.
  - eapply Permutation_NoDup; [|exact N].
    apply Permutation_map, sort_by_perm.
  - apply sort_by_sorted.
  - apply sort_by_sorted.
Qed.
End SortFacts.

(* ===================================================================== *)
(** * Consolidation: what [consolidate_rows] computes *)
(* ===================================================================== *)

Lemma sum_rows_fold rows :
  forall sums, sum_rows rows sums = Ok (fold_left add_row rows sums).
Proof.
  induction rows as [|[code qty] rows IH]; intro sums; simpl; [reflexivity|].
  rewrite parse_pt_br_float_total. simpl. apply IH.
Qed.

Lemma dict_add_keys sums c v :
  map fst (dict_add sums c v) = add_new (map fst sums) c.
Proof.
  unfold add_new. induction sums as [|[c0 t] sums IH]; simpl; [reflexivity|].
  destruct (str_eqb c0 c) eqn:E; simpl; [reflexivity|].
  rewrite IH. now destruct (existsb _ (map fst sums)).
Qed.

Lemma keys_fold rows :
  forall sums,
    map fst (fold_left add_row rows sums)
    = fold_left add_new (map fst rows) (map fst sums).
Proof.
  induction rows as [|r rows IH]; intro sums; simpl; [reflexivity|].
  rewrite IH. unfold add_row. now rewrite dict_add_keys.
Qed.

Lemma dict_get_add sums c v c' :
  dict_get (dict_add sums c v) c'
  = if str_eqb c c' then f64_add (dict_get sums c') v else dict_get sums c'.
Proof.
  induction sums as [|[c0 t] sums IH]; simpl.
  - now destruct (str_eqb c c').
  - destruct (str_eqb c0 c) eqn:E0; simpl.
    + apply str_eqb_eq in E0. subst c0.
      now destruct (str_eqb c c').
    + rewrite IH. destruct (str_eqb c0 c') eqn:E1; [|reflexivity].
      apply str_eqb_eq in E1. subst c0.
      destruct (str_eqb c c') eqn:E2; [|reflexivity].
      apply str_eqb_eq in E2. subst c'.
      rewrite str_eqb_refl in E0. discriminate.
Qed.

Lemma dict_get_fold rows :
  forall sums c,
    dict_get (fold_left add_row rows sums) c
    = total_from (dict_get sums c) c rows.
Proof.
  unfold total_from, quantities_of.
  induction rows as [|[code qty] rows IH]; intros sums c; simpl;
    [reflexivity|].
  rewrite IH. unfold add_row. simpl. rewrite dict_get_add.
  now destruct (str_eqb code c).
Qed.

Lemma add_new_In seen c x : In x (add_new seen c) <-> In x seen \/ x = c.
Proof.
  unfold add_new. destruct (existsb _ seen) eqn:E.
  - split; [auto|]. intros [H | ->]; [assumption|].
    apply existsb_exists in E as [y [Hy Ey]].
    apply str_eqb_eq in Ey. now subst.
  - rewrite in_app_iff. simpl. intuition congruence.
Qed.

Lemma add_new_NoDup seen c : NoDup seen -> NoDup (add_new seen c).
Proof.
  intro N. unfold add_new. destruct (existsb _ seen) eqn:E; [assumption|].
  apply NoDup_app; [assumption | repeat constructor; intros [] |].
  intros x Hx [Ex|[]]. subst x.
  assert (X : existsb (fun c' => str_eqb c' c) seen = true)
    by (apply existsb_exists; exists c; split;
        [assumption | apply str_eqb_refl]).
  congruence.
Qed.

Lemma fold_add_new_spec codes :
  forall seen,
    NoDup seen ->
    NoDup (fold_left add_new codes seen) /\
    (forall x, In x (fold_left add_new codes seen) <-> In x seen \/ In x codes).
Proof.
  induction codes as [|c codes IH]; intros seen N; simpl.
  - split; [assumption | intuition].
  - destruct (IH (add_new seen c) (add_new_NoDup seen c N)) as [N' I'].
    split; [assumption|]. intro x. rewrite I', add_new_In.
    intuition congruence.
Qed.

Lemma distinct_NoDup codes : NoDup (distinct codes).
Proof. apply (fold_add_new_spec codes []). constructor. Qed.

Lemma distinct_In codes x : In x (distinct codes) <-> In x codes.
Proof.
  destruct (fold_add_new_spec codes [] (NoDup_nil _)) as [_ I].
  rewrite I. simpl. tauto.
Qed.

(** [consolidate_rows] in one expression: the distinct codes sorted by
    their natural keys, each with its total rendered. *)
Lemma consolidate_rows_eq rows :
  consolidate_rows rows =
  (sorted <- sorted_natural (distinct (map fst rows)) ;;
   Ok (map (fun c => (c, format_pt_br (total_of c rows))) sorted)).
Proof.
  unfold consolidate_rows. rewrite sum_rows_fold. simpl.
  rewrite keys_fold. simpl. fold (distinct (map fst rows)).
  destruct (sorted_natural _) as [sorted|e]; simpl; [|reflexivity].
  f_equal. apply map_ext. intro c.
  now rewrite dict_get_fold.
Qed.

(** ** The keys *)

Lemma mapM_keyed codes :
  (mapM keyed codes = Ok (map (fun c => (key_of c, c)) codes) /\
   forall c, In c codes -> natural_key c = Ok (key_of c)) \/
  (mapM keyed codes = Raise ValueError /\
   exists c, In c codes /\ natural_key c = Raise ValueError).
Proof.
  induction codes as [|c codes IH]; simpl.
  - left. split; [reflexivity | intros c []].
  - unfold keyed at 1 3. unfold key_of at 1.
    destruct (natural_key c) as [k|[]] eqn:E; simpl.
    + destruct IH as [[-> H]|[-> [x [Hx Ex]]]]; simpl.
      * left. split; [reflexivity|].
        intros x [<-|Hx]; [|auto]. unfold key_of. now rewrite E.
      * right. split; [reflexivity|]. eauto.
    + right. split; [reflexivity|]. exists c. auto.
Qed.

Lemma sorted_natural_eq codes :
  sorted_natural codes =
  (ks <- mapM keyed codes ;; Ok (map snd (sort_by key_ltb ks))).
Proof. reflexivity. Qed.

Lemma keyed_sorted (sl : list (list key_elem * str)) :
  StronglySorted (key_le key_ltb) sl ->
  Forall (fun x => natural_key (snd x) = Ok (fst x)) sl ->
  StronglySorted natural_le (map snd sl).
Proof.
  induction 1 as [|x t St IH Hx]; intro F; simpl; [constructor|].
  inversion F as [|? ? Fx Ft]; subst.
  constructor; [now apply IH|].
  rewrite Forall_forall in *. intros c Hc.
  apply in_map_iff in Hc as [y [<- Hy]].
  exists (fst x), (fst y). repeat split; auto.
  exact (Hx y Hy).
Qed.

Lemma sorted_natural_sorted codes out :
  sorted_natural codes = Ok out ->
  Permutation codes out /\ StronglySorted natural_le out.
Proof.
  rewrite sorted_natural_eq.
  destruct (mapM_keyed codes) as [[-> H]|[-> _]]; simpl; [|discriminate].
  intro E. injection E as <-.
  set (l := map (fun c => (key_of c, c)) codes).
  assert (Ec : codes = map snd l).
  { unfold l. rewrite map_map. simpl. symmetry. apply map_id. }
  split.
  - rewrite Ec at 1. apply Permutation_map, sort_by_perm.
  - apply keyed_sorted.
    + exact (sort_by_sorted _ _ _ _ key_strict_total l).
    + pose proof (sort_by_perm _ _ key_ltb l) as P.
      rewrite Forall_forall. intros x Hx.
      apply (Permutation_in _ (Permutation_sym P)) in Hx.
      unfold l in Hx. apply in_map_iff in Hx as [c [<- Hc]]. simpl. auto.
Qed.

(** ** The shape of a natural key *)

Lemma re_split_digits_runs s :
  forall b acc,
    Forall (fun c => isdecimal c = b) acc -> (b = true -> acc <> []) ->
    runs b (re_split_digits b acc s).
Proof.
  induction s as [|c s IH]; intros b acc Ha Hne; simpl.
  - assert (Hr : Forall (fun c => isdecimal c = b) (rev acc))
      by now apply Forall_rev.
    assert (Hn : b = true -> rev acc <> []).
    { intros Hb E. apply (f_equal (@rev ascii)) in E.
      rewrite rev_involutive in E. now apply Hne. }
    destruct b; simpl; repeat split; auto; discriminate.
  - destruct (Bool.eqb (isdecimal c) b) eqn:E.
    + apply eqb_prop in E. apply IH; [now constructor | discriminate].
    + apply eqb_false_iff in E. simpl. repeat split.
      * now apply Forall_rev.
      * intros Hb Er. apply (f_equal (@rev ascii)) in Er.
        rewrite rev_involutive in Er. now apply Hne.
      * assert (Ec : isdecimal c = negb b)
          by (destruct (isdecimal c), b; simpl; congruence).
        rewrite <- Ec. apply IH; [now repeat constructor | discriminate].
Qed.

Lemma key_piece_cases b p e :
  Forall (fun c => isdecimal c = b) p -> (b = true -> p <> []) ->
  key_piece p = Ok e ->
  match e with
  | KInt _ => b = true
  | KStr _ => b = false
  end.
Proof.
  intros Hp Hne. unfold key_piece, py_int.
  destruct b.
  - assert (F : forallb isdecimal p = true)
      by (apply forallb_forall; now rewrite Forall_forall in Hp).
    assert (D : isdigit p = true).
    { destruct p as [|c p]; [now contradiction Hne|].
      unfold isdigit. apply forallb_forall. intros x Hx.
      apply decimal_is_digit_char. rewrite Forall_forall in Hp. auto. }
    rewrite D, F. simpl. intro E. now injection E as <-.
  - destruct (isdigit p) eqn:D.
    + destruct p as [|c p]; [discriminate|].
      inversion Hp as [|? ? Hc _]; subst. simpl. rewrite Hc. simpl.
      discriminate.
    + intro E. now injection E as <-.
Qed.

Lemma natural_key_alternates k key :
  natural_key k = Ok key -> alternates false key.
Proof.
  unfold natural_key. fold key_piece.
  pose proof (re_split_digits_runs k false [] (Forall_nil _)) as R.
  specialize (R ltac:(discriminate)).
  revert key R. generalize (re_split_digits false [] k) as pieces.
  generalize false as b.
  intros b pieces. revert b.
  induction pieces as [|p pieces IH]; intros b key R; simpl in *.
  - intro E. injection E as <-. exact R.
  - destruct R as [Hp [Hne R]].
    destruct (key_piece p) as [e|[]] eqn:Ep; simpl; [|discriminate].
    destruct (mapM key_piece pieces) as [es|[]] eqn:Es; simpl;
      [|discriminate].
    intro E. injection E as <-.
    pose proof (key_piece_cases b p e Hp Hne Ep) as C.
    specialize (IH (negb b) es R eq_refl).
    destruct e; subst b; simpl in *; auto.
Qed.

(* ===================================================================== *)
(** * Natural sort *)
(* ===================================================================== *)

(** C7. The codes of the consolidated list are the distinct codes of the
    rows sorted by their natural keys.  A key holds the runs of a code,
    digit runs as integers and the text between them as strings, and keys
    are compared element by element; so "2.1" comes before "17.2", which
    comes before "17.10", although "17.10" is before "17.2" as a string. *)
Theorem Consolidator_natural_sort :
  (forall rows,
     res_map (map fst) (consolidate_rows rows)
     = sorted_natural (distinct (map fst rows))) /\
  (forall codes out,
     sorted_natural codes = Ok out ->
     Permutation codes out /\ StronglySorted natural_le out) /\
  (forall k key, natural_key k = Ok key -> alternates false key) /\
  natural_key "17.2" = Ok [KStr ""; KInt 17; KStr "."; KInt 2; KStr ""] /\
  natural_key "17.10" = Ok [KStr ""; KInt 17; KStr "."; KInt 10; KStr ""] /\
  natural_key "2.1" = Ok [KStr ""; KInt 2; KStr "."; KInt 1; KStr ""] /\
  sorted_natural ["17.2"; "17.10"; "2.1"] = Ok ["2.1"; "17.2"; "17.10"] /\
  res_map (map fst)
    (consolidate_rows [("17.2", "1"); ("17.10", "1"); ("2.1", "1")])
  = Ok ["2.1"; "17.2"; "17.10"] /\
  str_ltb "17.10" "17.2" = true.
Proof.
  split; [|split; [|split]].
  - intro rows. rewrite consolidate_rows_eq. unfold res_map.
    destruct (sorted_natural _) as [sorted|e]; simpl; [|reflexivity].
    f_equal. rewrite map_map. simpl. apply map_id.
  - exact sorted_natural_sorted.
  - exact natural_key_alternates.
  - repeat split; vm_compute; reflexivity.
Qed.

(* ===================================================================== *)
(** * Consolidation and the order of the rows *)
(* ===================================================================== *)

Lemma NoDup_map_on {A B} (f : A -> B) (l : list A) :
  NoDup l ->
  (forall x y, In x l -> In y l -> f x = f y -> x = y) ->
  NoDup (map f l).
Proof.
  induction 1 as [|x l Hx N IH]; intro I; simpl; constructor.
  - intro H. apply in_map_iff in H as [y [E Hy]].
    apply Hx. rewrite (I x y); auto; [now left | now right].
  - apply IH. intros a b Ha Hb. apply I; now right.
Qed.

Lemma sorted_natural_perm codes codes' :
  Permutation codes codes' -> NoDup codes ->
  (forall c1 c2, In c1 codes -> In c2 codes ->
                 natural_key c1 = natural_key c2 -> c1 = c2) ->
  sorted_natural codes' = sorted_natural codes.
Proof.
  intros P N I. rewrite !sorted_natural_eq.
  destruct (mapM_keyed codes) as [[-> H]|[-> [c [Hc Ec]]]];
    destruct (mapM_keyed codes') as [[-> H']|[-> [c' [Hc' Ec']]]];
    simpl; try reflexivity.
  - f_equal. f_equal. symmetry.
    apply sort_by_unique with (eqb := list_eqb elem_eqb).
    + exact key_strict_total.
    + now apply Permutation_map.
    + rewrite map_map. simpl. apply NoDup_map_on; [assumption|].
      intros x y Hx Hy E. apply I; try assumption.
      now rewrite (H x Hx), (H y Hy), E.
  - apply (Permutation_in _ (Permutation_sym P)) in Hc'.
    rewrite (H c' Hc') in Ec'. discriminate.
  - apply (Permutation_in _ P) in Hc.
    rewrite (H' c Hc) in Ec. discriminate.
Qed.

Lemma quantities_of_In c rows :
  In c (map fst rows) <-> quantities_of c rows <> [].
Proof.
  unfold quantities_of. induction rows as [|[c0 q] rows IH]; simpl.
  - tauto.
  - destruct (str_eqb c0 c) eqn:E; simpl.
    + apply str_eqb_eq in E. split; [discriminate | auto].
    + apply str_eqb_neq in E. rewrite <- IH. tauto.
Qed.

(** C4, as the program has it.  Permuting the rows leaves the consolidated
    list unchanged when the rows of each code keep their relative order
    and distinct codes have distinct natural keys.  (The total of a code
    is a floating-point sum taken in the order of the rows, and codes with
    equal keys stay in the order of their first occurrence.) *)
Theorem Consolidator_order_independence (rows rows' : list (str * str)) :
  Permutation rows rows' ->
  (forall c, quantities_of c rows' = quantities_of c rows) ->
  (forall c1 c2, In c1 (map fst rows) -> In c2 (map fst rows) ->
                 natural_key c1 = natural_key c2 -> c1 = c2) ->
  consolidate_rows rows' = consolidate_rows rows.
Proof.
  intros P Q I. rewrite !consolidate_rows_eq.
  assert (PK : Permutation (distinct (map fst rows))
                 (distinct (map fst rows'))).
  { apply NoDup_Permutation; try apply distinct_NoDup.
    intro x. rewrite !distinct_In, !quantities_of_In. now rewrite Q. }
  rewrite (sorted_natural_perm _ _ PK (distinct_NoDup _)).
  - destruct (sorted_natural _) as [sorted|e]; simpl; [|reflexivity].
    f_equal. apply map_ext. intro c.
    unfold total_of, total_from. now rewrite Q.
  - intros c1 c2 H1 H2. apply I; now apply distinct_In.
Qed.

Lemma Consolidator_order_independence_witness :
  consolidate_rows rows_moved = consolidate_rows rows_in_order.
Proof.
  apply (Consolidator_order_independence rows_in_order rows_moved).
  - unfold rows_in_order, rows_moved.
    apply (Permutation_cons_app [("17.10", "3")]
             [("17.2", "0,2"); ("2.1", "1.234,56")] ("17.2", "0,1")).
    exact (Permutation_rev
             [("2.1", "1.234,56"); ("17.2", "0,2"); ("17.10", "3")]).
  - intro c. unfold quantities_of, rows_in_order, rows_moved.
    cbn [filter fst].
    destruct (str_eqb "17.2" c) eqn:E1;
      [apply str_eqb_eq in E1; subst c; reflexivity|].
    destruct (str_eqb "2.1" c) eqn:E2;
      [apply str_eqb_eq in E2; subst c; reflexivity|].
    destruct (str_eqb "17.10" c) eqn:E3;
      [apply str_eqb_eq in E3; subst c; reflexivity|].
    reflexivity.
  - intros c1 c2 H1 H2.
    simpl in H1, H2.
    repeat match goal with
           | H : _ \/ _ |- _ => destruct H as [H|H]
           | H : False |- _ => destruct H
           end; subst; try reflexivity; vm_compute; discriminate.
Defined.

(** C4, as stated, fails: the same rows in the opposite order give another
    total for the code "1" and another order of the codes "1" and "01". *)
Lemma Consolidator_permutation_counterexample :
  fst (extract_code_qty [table_given]) = rows_given /\
  fst (extract_code_qty [table_reversed]) = rows_reversed /\
  Forall extracted_row rows_given /\
  Permutation rows_given rows_reversed /\
  consolidate_rows rows_given
  = Ok [("1", "10.000.000.000.000.000,00"); ("01", "1,00")] /\
  consolidate_rows rows_reversed
  = Ok [("01", "1,00"); ("1", "10.000.000.000.000.002,00")] /\
  ~ (forall rows rows',
       Forall extracted_row rows -> Permutation rows rows' ->
       consolidate_rows rows' = consolidate_rows rows).
Proof.
  assert (F : Forall extracted_row rows_given).
  { unfold rows_given, extracted_row. repeat constructor; simpl;
      try reflexivity; try discriminate;
      intros [H|[H|[H|H]]]; discriminate H. }
  assert (P : Permutation rows_given rows_reversed)
    by apply Permutation_rev.
  split; [vm_compute; reflexivity|].
  split; [vm_compute; reflexivity|].
  split; [exact F|]. split; [exact P|].
  split; [vm_compute; reflexivity|].
  split; [vm_compute; reflexivity|].
  intro H. specialize (H rows_given rows_reversed F P).
  vm_compute in H. discriminate H.
Qed.

(** Floating-point addition alone already makes the total depend on the
    order of the rows of one code. *)
Lemma total_depends_on_order :
  consolidate_rows [("1", "10000000000000000"); ("1", "1"); ("1", "1")]
  = Ok [("1", "10.000.000.000.000.000,00")] /\
  consolidate_rows [("1", "1"); ("1", "1"); ("1", "10000000000000000")]
  = Ok [("1", "10.000.000.000.000.002,00")].
Proof. split; vm_compute; reflexivity. Qed.

(** Equal natural keys alone already make the order of the output depend
    on the order of the rows. *)
Lemma ties_depend_on_order :
  natural_key "1" = natural_key "01" /\
  consolidate_rows [("1", "1"); ("01", "1")]
  = Ok [("1", "1,00"); ("01", "1,00")] /\
  consolidate_rows [("01", "1"); ("1", "1")]
  = Ok [("01", "1,00"); ("1", "1,00")].
Proof. repeat split; vm_compute; reflexivity. Qed.

(* ===================================================================== *)
(** * Normalizer *)
(* ===================================================================== *)

Lemma nbsp_to_space_no_nbsp s : ~ In NBSP (replace [NBSP] " " s).
Proof.
  rewrite replace_char_by_char. intro H.
  apply in_map_iff in H as [x [E _]].
  destruct (Ascii.eqb NBSP x) eqn:Ex; [discriminate E|].
  subst x. now rewrite Ascii.eqb_refl in Ex.
Qed.

Lemma norm_no_nbsp s : ~ In NBSP (norm s).
Proof.
  intro H. apply In_strip in H. now apply nbsp_to_space_no_nbsp in H.
Qed.

Lemma nbsp_to_space_fixed s : ~ In NBSP s -> replace [NBSP] " " s = s.
Proof.
  intro H. rewrite replace_char_by_char.
  rewrite <- (map_id s) at 2. apply map_ext_in. intros c Hc.
  destruct (Ascii.eqb NBSP c) eqn:E; [|reflexivity].
  apply Ascii.eqb_eq in E. subst c. contradiction.
Qed.

Lemma strip_fixed s : no_space_ends s -> strip s = s.
Proof.
  intro H. pose proof (strip_between [] s []) as E.
  simpl in E. rewrite app_nil_r in E. apply E; try constructor; apply H.
Qed.

Lemma norm_fixed s : no_space_ends s -> ~ In NBSP s -> norm s = s.
Proof.
  intros H N. unfold norm. rewrite nbsp_to_space_fixed by assumption.
  now apply strip_fixed.
Qed.

Lemma norm_no_space_ends s : no_space_ends (norm s).
Proof. apply strip_no_space_ends. Qed.

Lemma norm_idempotent s : norm (norm s) = norm s.
Proof. apply norm_fixed; [apply norm_no_space_ends | apply norm_no_nbsp]. Qed.

(** X1. [norm] leaves a text unchanged exactly when the text has no
    no-break space and no white space at either end; its results are such
    texts, so normalizing twice is normalizing once. *)
Theorem Normalizer_fixed_points :
  (forall s, norm s = s <-> no_space_ends s /\ ~ In NBSP s) /\
  (forall s, norm (norm s) = norm s).
Proof.
  split; [|exact norm_idempotent].
  intro s. split.
  - intro E. rewrite <- E.
    split; [apply norm_no_space_ends | apply norm_no_nbsp].
  - intros [H N]. now apply norm_fixed.
Qed.

(* ===================================================================== *)
(** * The extraction, table by table and row by row *)
(* ===================================================================== *)

Lemma map_norm_twice (r : row) : map norm (map norm r) = map norm r.
Proof.
  rewrite map_map. apply map_ext. intro c. apply norm_idempotent.
Qed.

Lemma extract_row_normalized t_i r_i r st :
  extract_row t_i r_i (map norm r) st = extract_row t_i r_i r st.
Proof. unfold extract_row. now rewrite map_norm_twice. Qed.

Lemma extract_rows_normalized rows :
  forall t_i r_i st,
    extract_rows t_i r_i (map (map norm) rows) st
    = extract_rows t_i r_i rows st.
Proof.
  induction rows as [|r rows IH]; intros t_i r_i st; simpl; [reflexivity|].
  now rewrite extract_row_normalized, IH.
Qed.

Lemma is_itens_table_normalized t :
  is_itens_table (map (map norm) t) = is_itens_table t.
Proof.
  destruct t as [|r t]; [reflexivity|]. simpl. now rewrite map_norm_twice.
Qed.

Lemma extract_tables_normalized ts :
  forall t_i st,
    extract_tables t_i (map (map (map norm)) ts) st
    = extract_tables t_i ts st.
Proof.
  induction ts as [|t ts IH]; intros t_i st; simpl; [reflexivity|].
  rewrite IH. f_equal. unfold extract_table.
  rewrite is_itens_table_normalized.
  destruct (negb (is_itens_table t)); [reflexivity|].
  destruct t as [|r t]; [reflexivity|]. simpl.
  apply extract_rows_normalized.
Qed.

(** X2. Normalizing every cell of a document beforehand changes neither
    the rows extracted nor the summary: the extraction sees cell texts
    only through [norm]. *)
Theorem extraction_sees_normalized_text (doc : document) :
  extract_code_qty (normalized doc) = extract_code_qty doc.
Proof.
  unfold extract_code_qty, normalized.
  rewrite extract_tables_normalized, length_map. reflexivity.
Qed.

Lemma ND_not_code q : is_ND q -> code_re_matches q = false.
Proof. intros [-> | [-> | [-> | ->]]]; reflexivity. Qed.

(** The outcome of a row, as a list of at most one row and at most one
    skip record. *)
Lemma row_outcome t_i r_i (r : row) :
  (row_accepted r = accepted_row r) /\
  ((accepted_row r <> [] /\ row_skipped t_i r_i r = []) \/
   (accepted_row r = [] /\
    exists why value,
      row_skipped t_i r_i r = [(t_i, r_i, why, value)] /\
      skip_explains r why value)).
Proof.
  unfold row_accepted, row_skipped, extract_row, accepted_row.
  destruct r as [|cell0 rest]; simpl.
  - split; [reflexivity|]. right. split; [reflexivity|].
    exists "skip_empty_row", "". split; [reflexivity|]. left. auto.
  - rewrite norm_idempotent.
    destruct (is_empty (norm cell0)) eqn:Ee; simpl.
    { destruct (norm cell0) eqn:En; [|discriminate]. simpl.
      split; [reflexivity|]. right. split; [reflexivity|].
      exists "skip_code_empty_or_ND", "". split; [reflexivity|].
      right. left. exists cell0, rest. rewrite En. auto. }
    destruct (upper_eqb (norm cell0) "#N/D") eqn:Eu; simpl.
    { apply upper_eqb_ND in Eu. rewrite (ND_not_code _ Eu).
      split; [reflexivity|]. right. split; [reflexivity|].
      exists "skip_code_empty_or_ND", "". split; [reflexivity|].
      right. left. exists cell0, rest. auto. }
    destruct (code_re_matches (norm cell0)) eqn:Ec; simpl.
    + pose proof (pick_quantity_valid_code (norm cell0) (map norm rest))
        as P.
      rewrite norm_idempotent in P. destruct (P Ec) as [Hne Hnd].
      apply is_empty_false in Hne. rewrite Hne, Hnd. simpl.
      rewrite strip_norm, strip_pick_quantity.
      split; [reflexivity|]. left. split; [discriminate | reflexivity].
    + split; [reflexivity|]. right. split; [reflexivity|].
      exists "skip_code_invalid", (norm cell0). split; [reflexivity|].
      right. right. exists cell0, rest.
      apply is_empty_false in Ee.
      repeat split; try assumption.
      intro N. apply upper_eqb_ND in N. congruence.
Qed.

Lemma extract_row_extends t_i r_i r st :
  results (extract_row t_i r_i r st) = results st ++ accepted_row r /\
  logs (extract_row t_i r_i r st) = logs st ++ row_skipped t_i r_i r /\
  itens_tables (extract_row t_i r_i r st) = itens_tables st.
Proof.
  rewrite <- (proj1 (row_outcome t_i r_i r)).
  unfold row_accepted, row_skipped, extract_row.
  destruct (map norm r) as [|cell0 cells]; simpl;
    [now rewrite app_nil_r|].
  repeat match goal with
         | |- context [if ?b then _ else _] => destruct b; simpl
         end;
    rewrite ?app_nil_r; auto.
Qed.

Lemma extract_rows_extends rows :
  forall t_i r_i st,
    results (extract_rows t_i r_i rows st)
    = results st ++ flat_map accepted_row rows /\
    logs (extract_rows t_i r_i rows st)
    = logs st ++ rows_skipped t_i r_i rows /\
    itens_tables (extract_rows t_i r_i rows st) = itens_tables st.
Proof.
  induction rows as [|r rows IH]; intros t_i r_i st; simpl.
  - now rewrite !app_nil_r.
  - destruct (IH t_i (S r_i) (extract_row t_i r_i r st)) as [A [B C]].
    destruct (extract_row_extends t_i r_i r st) as [A0 [B0 C0]].
    rewrite A, B, C, A0, B0, C0, !app_assoc. auto.
Qed.

Lemma extract_tables_extends ts :
  forall t_i st,
    results (extract_tables t_i ts st)
    = results st ++ accepted_rows ts /\
    logs (extract_tables t_i ts st) = logs st ++ tables_skipped t_i ts /\
    itens_tables (extract_tables t_i ts st)
    = itens_tables st + length (target_tables ts).
Proof.
  unfold accepted_rows, target_tables.
  induction ts as [|t ts IH]; intros t_i st; simpl.
  - now rewrite !app_nil_r, Nat.add_0_r.
  - destruct (IH (S t_i) (extract_table t_i t st)) as [A [B C]].
    rewrite A, B, C. unfold extract_table.
    destruct (is_itens_table t); simpl.
    + match goal with
      | |- context [extract_rows t_i 2 (tl t) ?s] =>
          destruct (extract_rows_extends (tl t) t_i 2 s) as [A1 [B1 C1]]
      end.
      rewrite A1, B1, C1. simpl. rewrite !app_assoc.
      repeat split. lia.
    + auto.
Qed.

(** X3. The rows extracted from a document are, in order, the rows given
    by the data rows of its target tables: a data row gives a row exactly
    when its first cell, normalized, matches [CODE_RE], and then the code
    is that cell and the quantity the one picked from the normalized
    cells.  Rows are taken one by one, so repeated rows are all kept. *)
Theorem extracted_rows_row_by_row (doc : document) :
  fst (extract_code_qty doc) = accepted_rows doc.
Proof.
  exact (proj1 (extract_tables_extends doc 1 empty_state)).
Qed.

Lemma results_eq doc : fst (extract_code_qty doc) = accepted_rows doc.
Proof. exact (proj1 (extract_tables_extends doc 1 empty_state)). Qed.

Lemma itens_tables_eq doc :
  meta_itens_tables (snd (extract_code_qty doc))
  = length (target_tables doc).
Proof.
  exact (proj2 (proj2 (extract_tables_extends doc 1 empty_state))).
Qed.

Lemma row_counts_one t_i r_i (r : row) :
  length (accepted_row r) + length (row_skipped t_i r_i r) = 1.
Proof.
  destruct (row_outcome t_i r_i r) as [_ [[Ha ->]|[-> [w [v [-> _]]]]]];
    [|reflexivity].
  unfold accepted_row in *. destruct r as [|cell0 rest]; [contradiction|].
  destruct (code_re_matches (norm cell0)); [reflexivity | contradiction].
Qed.

Lemma rows_counts rows :
  forall t_i r_i,
    length (flat_map accepted_row rows)
    + length (rows_skipped t_i r_i rows) = length rows.
Proof.
  induction rows as [|r rows IH]; intros t_i r_i; simpl; [reflexivity|].
  rewrite !length_app.
  pose proof (row_counts_one t_i r_i r). pose proof (IH t_i (S r_i)). lia.
Qed.

Lemma tables_counts ts :
  forall t_i,
    length (accepted_rows ts) + length (tables_skipped t_i ts)
    = data_rows ts.
Proof.
  unfold accepted_rows, data_rows, target_tables.
  induction ts as [|t ts IH]; intro t_i; simpl; [reflexivity|].
  specialize (IH (S t_i)).
  destruct (is_itens_table t); simpl; rewrite ?length_app.
  - pose proof (rows_counts (tl t) t_i 2).
    assert (length (tl t) = length t - 1) by (destruct t; simpl; lia).
    lia.
  - simpl. lia.
Qed.

(** X4. In the summary of any document, the tables counted as targets are
    those [is_itens_table] selects, at most all the tables, and the rows
    extracted plus the rows ignored are exactly the rows below the headers
    of the target tables. *)
Theorem document_counts (doc : document) :
  tables_total (snd (extract_code_qty doc)) = length doc /\
  meta_itens_tables (snd (extract_code_qty doc))
  = length (target_tables doc) /\
  meta_itens_tables (snd (extract_code_qty doc))
  <= tables_total (snd (extract_code_qty doc)) /\
  rows_extracted (snd (extract_code_qty doc))
  + rows_ignored (snd (extract_code_qty doc)) = data_rows doc.
Proof.
  destruct (extract_tables_extends doc 1 empty_state) as [A [B C]].
  unfold extract_code_qty. simpl.
  change {| results := []; logs := []; itens_tables := 0 |}
    with empty_state.
  rewrite A, B, C. simpl.
  split; [reflexivity|]. split; [reflexivity|].
  split; [apply filter_length_le | apply tables_counts].
Qed.

(** X5. A document without a target table gives no row, no skip record
    and a summary that only counts its tables. *)
Theorem no_target_table (doc : document) :
  Forall not_target doc ->
  extract_code_qty doc =
  ([], {| tables_total := length doc;
          meta_itens_tables := 0;
          rows_extracted := 0;
          rows_ignored := 0;
          ignored_details := [] |}).
Proof.
  intro H. unfold extract_code_qty.
  now rewrite (extract_tables_not_target doc H).
Qed.

Lemma no_target_table_witness :
  extract_code_qty [ [["Descricao"; "Qtd"]; ["17.1"; ""; "5,00"]]; [] ] =
  ([], {| tables_total := 2;
          meta_itens_tables := 0;
          rows_extracted := 0;
          rows_ignored := 0;
          ignored_details := [] |}).
Proof.
  apply (no_target_table [ [["Descricao"; "Qtd"]; ["17.1"; ""; "5,00"]]; [] ]).
  repeat constructor.
Defined.

(** ** Documents put together *)

Lemma row_skipped_shift n t_i r_i (r : row) :
  row_skipped (n + t_i) r_i r = map (shift_table n) (row_skipped t_i r_i r).
Proof.
  unfold row_skipped, extract_row.
  destruct (map norm r) as [|cell0 cells]; [reflexivity|].
  repeat match goal with
         | |- context [if ?b then _ else _] => destruct b; simpl
         end; reflexivity.
Qed.

Lemma rows_skipped_shift n rows :
  forall t_i r_i,
    rows_skipped (n + t_i) r_i rows
    = map (shift_table n) (rows_skipped t_i r_i rows).
Proof.
  induction rows as [|r rows IH]; intros t_i r_i; simpl; [reflexivity|].
  now rewrite map_app, row_skipped_shift, IH.
Qed.

Lemma tables_skipped_shift n ts :
  forall t_i,
    tables_skipped (n + t_i) ts
    = map (shift_table n) (tables_skipped t_i ts).
Proof.
  induction ts as [|t ts IH]; intro t_i; simpl; [reflexivity|].
  rewrite map_app, <- IH, <- plus_n_Sm.
  destruct (is_itens_table t); [|reflexivity].
  now rewrite rows_skipped_shift.
Qed.

Lemma tables_skipped_app ts1 ts2 :
  forall t_i,
    tables_skipped t_i (ts1 ++ ts2)
    = tables_skipped t_i ts1 ++ tables_skipped (length ts1 + t_i) ts2.
Proof.
  induction ts1 as [|t ts1 IH]; intro t_i; simpl; [reflexivity|].
  rewrite IH, <- app_assoc, <- plus_n_Sm. reflexivity.
Qed.

Lemma accepted_rows_app d1 d2 :
  accepted_rows (d1 ++ d2) = accepted_rows d1 ++ accepted_rows d2.
Proof.
  unfold accepted_rows, target_tables.
  now rewrite filter_app, flat_map_app.
Qed.

Lemma ignored_details_eq doc :
  ignored_details (snd (extract_code_qty doc)) = tables_skipped 1 doc.
Proof.
  exact (proj1 (proj2 (extract_tables_extends doc 1 empty_state))).
Qed.

(** X6. Extraction works table by table: for two lists of tables put
    together, the rows are those of the first followed by those of the
    second, and the skip records likewise, the table indices of the second
    being moved by the number of tables of the first. *)
Theorem extraction_of_concatenation (d1 d2 : document) :
  fst (extract_code_qty (d1 ++ d2))
  = fst (extract_code_qty d1) ++ fst (extract_code_qty d2) /\
  ignored_details (snd (extract_code_qty (d1 ++ d2)))
  = ignored_details (snd (extract_code_qty d1))
    ++ map (shift_table (length d1))
         (ignored_details (snd (extract_code_qty d2))) /\
  meta_itens_tables (snd (extract_code_qty (d1 ++ d2)))
  = meta_itens_tables (snd (extract_code_qty d1))
    + meta_itens_tables (snd (extract_code_qty d2)).
Proof.
  rewrite !results_eq, !ignored_details_eq.
  split; [apply accepted_rows_app|]. split.
  - now rewrite tables_skipped_app, tables_skipped_shift.
  - rewrite !itens_tables_eq.
    unfold target_tables. now rewrite filter_app, length_app.
Qed.

(** ** The log, record by record *)

Lemma skip_explains_unique (r : row) w v w' v' :
  skip_explains r w v -> skip_explains r w' v' -> w = w' /\ v = v'.
Proof.
  intros [[E [-> ->]]|[[c [t [E [H [-> ->]]]]]
                      |[c [t [E [H1 [H2 [H3 [-> ->]]]]]]]]]
         [[E' [-> ->]]|[[c' [t' [E' [H' [-> ->]]]]]
                       |[c' [t' [E' [H1' [H2' [H3' [-> ->]]]]]]]]];
    subst; try discriminate; auto;
    injection E' as -> ->; tauto.
Qed.

Lemma row_skipped_iff t_i r_i (r : row) rec :
  In rec (row_skipped t_i r_i r) <->
  exists why value, rec = (t_i, r_i, why, value) /\ skip_explains r why value.
Proof.
  destruct (row_outcome t_i r_i r) as [_ [[Ha ->]|[Ha [w [v [-> Hs]]]]]].
  - split; [intros []|]. intros [why [value [_ Hs]]]. exfalso.
    unfold accepted_row in Ha.
    destruct Hs as [[E _]|[[c [t [E [H _]]]]|[c [t [E [_ [_ [H _]]]]]]]];
      subst r; try contradiction.
    + destruct H as [H|H]; [rewrite H in Ha; now apply Ha|].
      rewrite (ND_not_code _ H) in Ha. now apply Ha.
    + rewrite H in Ha. now apply Ha.
  - split.
    + intros [<-|[]]. eauto.
    + intros [why [value [-> Hs']]].
      destruct (skip_explains_unique r w v why value Hs Hs') as [-> ->].
      now left.
Qed.

Lemma In_rows_skipped rows rec :
  forall t_i r_i,
    In rec (rows_skipped t_i r_i rows) <->
    exists j r, nth_error rows j = Some r /\
                In rec (row_skipped t_i (r_i + j) r).
Proof.
  induction rows as [|r0 rows IH]; intros t_i r_i; simpl.
  - split; [intros [] | intros [[|j] [r [E _]]]; discriminate].
  - rewrite in_app_iff, IH. split.
    + intros [H|[j [r [E H]]]].
      * exists 0, r0. rewrite Nat.add_0_r. auto.
      * exists (S j), r. rewrite <- plus_n_Sm. auto.
    + intros [[|j] [r [E H]]]; simpl in E.
      * injection E as ->. rewrite Nat.add_0_r in H. auto.
      * right. exists j, r. rewrite <- plus_n_Sm in H. auto.
Qed.

Lemma In_tables_skipped ts rec :
  forall t_i,
    In rec (tables_skipped t_i ts) <->
    exists k t, nth_error ts k = Some t /\ is_itens_table t = true /\
                In rec (rows_skipped (t_i + k) 2 (tl t)).
Proof.
  induction ts as [|t0 ts IH]; intro t_i; simpl.
  - split; [intros [] | intros [[|k] [t [E _]]]; discriminate].
  - rewrite in_app_iff, IH. split.
    + intros [H|[k [t [E [Ht H]]]]].
      * destruct (is_itens_table t0) eqn:E0; [|destruct H].
        exists 0, t0. rewrite Nat.add_0_r. auto.
      * exists (S k), t. rewrite <- plus_n_Sm. auto.
    + intros [[|k] [t [E [Ht H]]]]; simpl in E.
      * injection E as ->. rewrite Ht. rewrite Nat.add_0_r in H. auto.
      * right. exists k, t. rewrite <- plus_n_Sm in H. auto.
Qed.

(** X7. The log holds exactly one record for each data row of a target
    table that gives no row: the record names the table (from 1) and the
    row (from 2, the header being row 1) and carries the reason, which is
    "skip_empty_row" for a row without cells, "skip_code_empty_or_ND" for
    an empty or "#N/D" first cell, and "skip_code_invalid", with the code,
    for a first cell that [CODE_RE] rejects. *)
Theorem skip_log_exact (doc : document) (t_i r_i : nat) (why value : str) :
  In (t_i, r_i, why, value) (ignored_details (snd (extract_code_qty doc)))
  <->
  exists t r,
    1 <= t_i /\ nth_error doc (t_i - 1) = Some t /\
    is_itens_table t = true /\
    2 <= r_i /\ nth_error t (r_i - 1) = Some r /\
    skip_explains r why value.
Proof.
  rewrite ignored_details_eq, In_tables_skipped. split.
  - intros [k [t [Ek [Ht H]]]].
    apply In_rows_skipped in H as [j [r [Ej H]]].
    apply row_skipped_iff in H as [w [v [E Hs]]].
    injection E as -> -> -> ->.
    exists t, r. simpl. rewrite Nat.sub_0_r.
    repeat split; try assumption; try lia.
    destruct t as [|h t]; [destruct j; discriminate|]. exact Ej.
  - intros [t [r [H1 [Ek [Ht [H2 [Ej Hs]]]]]]].
    exists (t_i - 1), t. repeat split; try assumption.
    apply In_rows_skipped. exists (r_i - 2), r. split.
    + destruct t as [|h t]; [destruct (r_i - 1); discriminate|].
      replace (r_i - 1) with (S (r_i - 2)) in Ej by lia. exact Ej.
    + apply row_skipped_iff. exists why, value. split; [|assumption].
      repeat f_equal; lia.
Qed.

(** ** The rows that are emitted, and where they come from *)

Lemma accepted_row_single (r : row) x :
  In x (accepted_row r) -> accepted_row r = [x].
Proof.
  unfold accepted_row. destruct r as [|cell0 rest]; [intros []|].
  destruct (code_re_matches (norm cell0)); [|intros []].
  now intros [<-|[]].
Qed.

(** X8. Every row extracted comes from a data row of a target table; its
    code is one or more digits, optionally followed by a dot and one or
    more digits, with nothing around them, and its quantity is neither
    empty nor "#N/D" and has no white space at its ends. *)
Theorem extracted_rows_well_formed (doc : document) (code qty : str) :
  In (code, qty) (fst (extract_code_qty doc)) ->
  code_grammar code /\ qty <> "" /\ ~ is_ND qty /\ no_space_ends qty /\
  exists t r,
    In t doc /\ is_itens_table t = true /\ In r (tl t) /\
    accepted_row r = [(code, qty)].
Proof.
  intro H.
  pose proof (extract_code_qty_emits doc) as F.
  rewrite Forall_forall in F.
  destruct (F _ H) as [Hc [Sc [Hq [Hn Sq]]]]. simpl in Hc, Sc, Hq, Hn, Sq.
  split; [rewrite <- Sc; now apply code_re_matches_iff|].
  split; [assumption|]. split; [assumption|].
  split; [rewrite <- Sq; apply strip_no_space_ends|].
  rewrite results_eq in H. unfold accepted_rows in H.
  apply in_flat_map in H as [t [Ht H]].
  apply in_flat_map in H as [r [Hr H]].
  unfold target_tables in Ht. apply filter_In in Ht as [Ht Hi].
  exists t, r. repeat split; try assumption.
  now apply accepted_row_single.
Qed.

Lemma extracted_rows_well_formed_witness :
  code_grammar "17.1" /\ "5,00" <> "" /\ ~ is_ND "5,00" /\
  no_space_ends "5,00" /\
  exists t r,
    In t [scenario_table] /\ is_itens_table t = true /\ In r (tl t) /\
    accepted_row r = [("17.1", "5,00")].
Proof.
  apply (extracted_rows_well_formed [scenario_table] "17.1" "5,00").
  vm_compute. auto.
Defined.

(** ** When no quantity is found *)

Lemma In_join_cell sep (l : list str) x c :
  In x l -> In c x -> In c (join sep l).
Proof.
  induction l as [|y l IH]; [intros []|].
  intros Hx Hc. destruct l as [|z l].
  - destruct Hx as [->|[]]. exact Hc.
  - change (join sep (y :: z :: l)) with (y ++ sep ++ join sep (z :: l)).
    rewrite !in_app_iff. destruct Hx as [->|Hx]; auto.
Qed.

Lemma In_join_inv sep (l : list str) c :
  In c (join sep l) -> In c sep \/ exists x, In x l /\ In c x.
Proof.
  induction l as [|y l IH]; [intros []|].
  destruct l as [|z l].
  - intro H. right. exists y. split; [now left | exact H].
  - change (join sep (y :: z :: l)) with (y ++ sep ++ join sep (z :: l)).
    rewrite !in_app_iff. intros [H|[H|H]].
    + right. exists y. split; [now left | exact H].
    + now left.
    + destruct (IH H) as [Hs|[x [Hx Hc]]]; [now left|].
      right. exists x. split; [now right | exact Hc].
Qed.

Lemma search_quantity_empty joined :
  search_quantity joined = "" <->
  forall c, In c joined -> isdecimal c = false.
Proof.
  split.
  - intros E c Hc. destruct (isdecimal c) eqn:Hd; [|reflexivity].
    destruct (search_quantity_found joined c Hc Hd) as [d [w [E' _]]].
    congruence.
  - intro H.
    destruct (search_quantity_spec joined)
      as [[E _]|[pre [post [E [_ Hb]]]]]; [exact E|].
    destruct Hb as [_ [k [Hk _]]].
    destruct (has_shape_head k _ Hk) as [c [w' [Ec Hc]]].
    rewrite Ec in E. rewrite (H c) in Hc; [discriminate|].
    rewrite E. apply in_or_app. right. now left.
Qed.

(** X9. [pick_quantity_from_row] returns the empty string exactly when the
    third cell cannot be used and no cell of the row contains a decimal
    digit. *)
Theorem QuantityPicker_empty (cells : list str) :
  pick_quantity_from_row cells = "" <->
  ~ third_cell_usable cells /\
  forall cell c, In cell cells -> In c cell -> isdecimal c = false.
Proof.
  rewrite pick_quantity_unfold.
  destruct ((3 <=? length cells)
            && negb (is_empty (norm (nth 2 cells "")))
            && negb (upper_eqb (norm (nth 2 cells "")) "#N/D")) eqn:E.
  - pose proof (proj1 (third_cell_usable_dec cells)) as U.
    assert (Hu : third_cell_usable cells) by (apply U; exact E).
    split; [|tauto]. intro En. destruct Hu as [_ [Hne _]]. contradiction.
  - assert (Hu : ~ third_cell_usable cells).
    { intro H. apply (proj2 (third_cell_usable_dec cells)) in H.
      discriminate (eq_trans (eq_sym H) E). }
    rewrite search_quantity_empty. split.
    + intro H. split; [assumption|]. intros cell c Hcell Hc.
      apply H. eapply In_join_cell; eassumption.
    + intros [_ H] c Hc.
      destruct (In_join_inv " " cells c Hc) as [[<-|[]]|[x [Hx Hcx]]];
        [reflexivity | eauto].
Qed.

(* ===================================================================== *)
(** * Natural keys *)
(* ===================================================================== *)







Lemma code_grammar_text code :
  code_grammar code <->
  exists a b, DIGITS a /\ DIGITS_opt b /\ code = code_text a b.
Proof.
  split.
  - intros [a [Ha [->|[b [Hb ->]]]]].
    + exists a, None. simpl. auto.
    + exists a, (Some b). simpl. auto.
  - intros [a [[b|] [Ha [Hb ->]]]]; exists a; simpl in *; eauto.
Qed.


(* ===================================================================== *)
(** * Consolidation: errors and entries *)
(* ===================================================================== *)











Lemma consolidate_rows_ok_inv rows out :
  consolidate_rows rows = Ok out ->
  exists sorted,
    Permutation (distinct (map fst rows)) sorted /\
    out = map (fun c => (c, format_pt_br (total_of c rows))) sorted.
Proof.
  rewrite consolidate_rows_eq.
  destruct (sorted_natural _) as [sorted|e] eqn:E; simpl; [|discriminate].
  intro H. injection H as <-. exists sorted. split; [|reflexivity].
  now apply sorted_natural_sorted in E.
Qed.

(** X13. The consolidated list has exactly one entry for each distinct
    code of the rows, so it is never longer than the rows, and the text of
    an entry renders the sum of the quantities of its code, added from
    left to right starting from 0.0. *)
Theorem consolidated_entries (rows out : list (str * str)) :
  consolidate_rows rows = Ok out ->
  NoDup (map fst out) /\
  (forall c, In c (map fst out) <-> In c (map fst rows)) /\
  length out <= length rows /\
  (forall c t, In (c, t) out -> t = format_pt_br (total_of c rows)).
Proof.
  intro H. apply consolidate_rows_ok_inv in H as [sorted [P ->]].
  assert (E : map fst (map (fun c => (c, format_pt_br (total_of c rows)))
                         sorted) = sorted).
  { rewrite map_map. simpl. apply map_id. }
  rewrite E. split; [|split; [|split]].
  - apply (Permutation_NoDup P), distinct_NoDup.
  - intro c. split; intro Hc.
    + apply distinct_In. now apply (Permutation_in _ (Permutation_sym P)).
    + apply (Permutation_in _ P). now apply distinct_In.
  - rewrite length_map, <- (Permutation_length P).
    rewrite <- (length_map fst rows).
    apply NoDup_incl_length; [apply distinct_NoDup|].
    intros c Hc. now apply distinct_In.
  - intros c t Hin. apply in_map_iff in Hin as [c' [Ec _]].
    now injection Ec as -> <-.
Qed.

Lemma consolidated_entries_witness :
  NoDup (map fst [("2.1", "1.234,56"); ("17.2", "0,30"); ("17.10", "3,00")])
  /\
  (forall c,
     In c (map fst [("2.1", "1.234,56"); ("17.2", "0,30");
                    ("17.10", "3,00")])
     <-> In c (map fst rows_in_order)) /\
  length [("2.1", "1.234,56"); ("17.2", "0,30"); ("17.10", "3,00")]
  <= length rows_in_order /\
  (forall c t,
     In (c, t) [("2.1", "1.234,56"); ("17.2", "0,30"); ("17.10", "3,00")]
     -> t = format_pt_br (total_of c rows_in_order)).
Proof.
  apply (consolidated_entries rows_in_order
           [("2.1", "1.234,56"); ("17.2", "0,30"); ("17.10", "3,00")]).
  vm_compute. reflexivity.
Defined.

(** ** Quantities that are not numbers *)

Lemma f64_add_nan_r x : f64_add x S754_nan = S754_nan.
Proof. destruct x; reflexivity. Qed.

Lemma fold_add_from_nan l : fold_left f64_add l S754_nan = S754_nan.
Proof. induction l as [|y l IH]; simpl; [reflexivity | exact IH]. Qed.

Lemma fold_add_nan l :
  forall x, In S754_nan l -> fold_left f64_add l x = S754_nan.
Proof.
  induction l as [|y l IH]; intros x H; [destruct H|].
  simpl. destruct H as [->|H].
  - rewrite f64_add_nan_r. apply fold_add_from_nan.
  - now apply IH.
Qed.

Lemma quantities_of_row c q rows :
  In (c, q) rows -> In q (quantities_of c rows).
Proof.
  intro H. unfold quantities_of. apply in_map_iff. exists (c, q).
  split; [reflexivity|]. apply filter_In. split; [assumption|].
  simpl. apply str_eqb_refl.
Qed.

(** X14. [float] accepts the text "nan": a row whose quantity reads as
    not-a-number is accepted, and the total of its code is then rendered
    as "nan", whatever the other quantities of the code. *)
Theorem nan_quantity_poisons_total (rows out : list (str * str)) c q :
  In (c, q) rows -> quantity_value q = S754_nan ->
  consolidate_rows rows = Ok out ->
  In (c, "nan") out.
Proof.
  intros Hin Hq H. apply consolidate_rows_ok_inv in H as [sorted [P ->]].
  assert (T : total_of c rows = S754_nan).
  { unfold total_of, total_from. apply fold_add_nan.
    rewrite <- Hq. apply in_map. now apply quantities_of_row. }
  apply in_map_iff. exists c. rewrite T. split; [reflexivity|].
  apply (Permutation_in _ P), distinct_In.
  apply in_map_iff. exists (c, q). auto.
Qed.

Lemma nan_quantity_poisons_total_witness :
  In ("17.1", "nan") [("17.1", "nan")] /\
  fst (extract_code_qty
         [ [["Itens"]; ["17.1"; ""; "5,00"]; ["17.1"; ""; "NaN"]] ])
  = [("17.1", "5,00"); ("17.1", "NaN")].
Proof.
  split; [|reflexivity].
  apply (nan_quantity_poisons_total
           [("17.1", "5,00"); ("17.1", "NaN")] [("17.1", "nan")]
           "17.1" "NaN").
  - right. now left.
  - reflexivity.
  - vm_compute. reflexivity.
Defined.

(* ===================================================================== *)
(** * Numbers in Brazilian notation *)
(* ===================================================================== *)

Lemma plain_char c :
  isdecimal c = true \/ c = "."%char ->
  (code_point c <? 128)%N = true /\ Ascii.eqb "_" c = false /\
  c_isspace c = false /\ Ascii.eqb c "-" = false /\
  Ascii.eqb c "+" = false /\ Ascii.eqb "," c = false.
Proof.
  destruct c as [[] [] [] [] [] [] [] []]; vm_compute; intros [H|H];
    try discriminate H; repeat split.
Qed.

Lemma to_ascii_plain t :
  digits_and_dots t -> decimal_and_space_to_ascii t = t.
Proof.
  intro H. unfold decimal_and_space_to_ascii.
  replace (forallb _ t) with true; [reflexivity|].
  symmetry. apply forallb_forall. intros c Hc.
  unfold digits_and_dots in H. rewrite Forall_forall in H.
  apply (plain_char c (H c Hc)).
Qed.

Lemma no_underscore_plain t :
  digits_and_dots t -> existsb (Ascii.eqb "_") t = false.
Proof.
  intro H. destruct (existsb _ t) eqn:E; [|reflexivity].
  apply existsb_exists in E as [c [Hc Ec]].
  unfold digits_and_dots in H. rewrite Forall_forall in H.
  destruct (plain_char c (H c Hc)) as [_ [N _]]. congruence.
Qed.

Lemma drop_while_plain t :
  digits_and_dots t -> drop_while c_isspace t = t.
Proof.
  intro H. destruct H as [|c t Hc _]; [reflexivity|].
  simpl. destruct (plain_char c Hc) as [_ [_ [-> _]]]. reflexivity.
Qed.

Lemma parse_sign_plain t : digits_and_dots t -> parse_sign t = (false, t).
Proof.
  intro H. destruct H as [|c t Hc _]; [reflexivity|].
  unfold parse_sign.
  destruct (plain_char c Hc) as [_ [_ [_ [-> [-> _]]]]]. reflexivity.
Qed.

Lemma span_app p a s :
  all_in p a -> not_starting p s -> span p (a ++ s) = (a, s).
Proof.
  intros Ha Hs. induction Ha as [|c a Hc _ IH].
  - destruct s as [|c s]; [reflexivity|].
    simpl. now rewrite (Hs c s eq_refl).
  - simpl. now rewrite Hc, IH.
Qed.

Lemma span_all p a : all_in p a -> span p a = (a, []).
Proof.
  intro H. rewrite <- (app_nil_r a) at 1. apply span_app; [assumption|].
  intros c s E. discriminate.
Qed.

Lemma all_in_plain a : all_in isdecimal a -> digits_and_dots a.
Proof. apply Forall_impl. auto. Qed.

Lemma strtod_digits a :
  DIGITS a ->
  strtod a = Some (f64_of_decimal false (digits_value a) 0, []).
Proof.
  intros [Hne Ha]. unfold strtod.
  rewrite (parse_sign_plain a (all_in_plain a Ha)), (span_all _ a Ha).
  destruct a as [|c a]; [contradiction|].
  cbn [is_empty andb parse_exponent length]. rewrite app_nil_r.
  reflexivity.
Qed.

Lemma strtod_fraction a f :
  all_in isdecimal a -> all_in isdecimal f -> a ++ f <> [] ->
  strtod (a ++ "." ++ f)
  = Some (f64_of_decimal false (digits_value (a ++ f))
            (- Z.of_nat (length f)), []).
Proof.
  intros Ha Hf Hne. unfold strtod.
  assert (P : digits_and_dots (a ++ "." ++ f)).
  { apply Forall_app. split; [now apply all_in_plain|].
    constructor; [now right | now apply all_in_plain]. }
  rewrite (parse_sign_plain _ P).
  rewrite (span_app isdecimal a ("." ++ f) Ha)
    by (intros c s E; now injection E as <- _).
  cbn [app]. rewrite Ascii.eqb_refl, (span_all _ f Hf).
  replace (is_empty a && is_empty f) with false.
  - cbn [parse_exponent]. reflexivity.
  - destruct a; [destruct f; [contradiction|]|]; reflexivity.
Qed.

Lemma float_inner_plain t x :
  digits_and_dots t -> t <> [] -> strtod t = Some (x, []) ->
  float_from_string_inner t = Ok x.
Proof.
  intros P Hne E. unfold float_from_string_inner.
  rewrite (drop_while_plain t P).
  replace (is_empty t) with false by (destruct t; [contradiction|easy]).
  assert (Pr : digits_and_dots (rev t)) by now apply Forall_rev.
  rewrite (drop_while_plain _ Pr), rev_involutive, E. reflexivity.
Qed.

Lemma py_float_plain t x :
  digits_and_dots t -> t <> [] -> strtod t = Some (x, []) ->
  py_float t = Ok x.
Proof.
  intros P Hne E. unfold py_float.
  rewrite (to_ascii_plain t P), (no_underscore_plain t P).
  now apply float_inner_plain.
Qed.

Lemma without_dots_digits a : all_in isdecimal a -> without_dots a = a.
Proof.
  intro H. unfold without_dots. induction H as [|c a Hc _ IH];
    [reflexivity|].
  cbn [filter]. replace (Ascii.eqb "." c) with false.
  - cbn [negb]. f_equal. exact IH.
  - symmetry. apply Ascii.eqb_neq. intros <-. discriminate Hc.
Qed.

Lemma without_dots_plain w :
  digits_and_dots w -> all_in isdecimal (without_dots w).
Proof.
  intro H. unfold without_dots. induction H as [|c w Hc _ IH];
    [constructor|].
  cbn [filter]. destruct (Ascii.eqb "." c) eqn:E; cbn [negb]; [exact IH|].
  constructor; [|exact IH]. destruct Hc as [Hc | ->]; [exact Hc|].
  discriminate E.
Qed.

Lemma commas_to_dots_plain t :
  digits_and_dots t -> commas_to_dots t = t.
Proof.
  intro H. unfold commas_to_dots. rewrite <- (map_id t) at 2.
  apply map_ext_in. intros c Hc.
  unfold digits_and_dots in H. rewrite Forall_forall in H.
  destruct (plain_char c (H c Hc)) as [_ [_ [_ [_ [_ ->]]]]]. reflexivity.
Qed.

Lemma cleaned_fraction w f :
  digits_and_dots w -> all_in isdecimal f ->
  commas_to_dots (without_dots (w ++ "," ++ f)) = without_dots w ++ "." ++ f.
Proof.
  intros Hw Hf.
  assert (E : without_dots (w ++ "," ++ f)
              = without_dots w ++ "," ++ without_dots f)
    by apply filter_app.
  rewrite E, (without_dots_digits f Hf).
  assert (M : forall a b, commas_to_dots (a ++ "," ++ b)
                          = commas_to_dots a ++ "." ++ commas_to_dots b)
    by (intros a b; apply map_app).
  rewrite M, (commas_to_dots_plain f (all_in_plain f Hf)).
  rewrite (commas_to_dots_plain _
             (all_in_plain _ (without_dots_plain w Hw))).
  reflexivity.
Qed.

Lemma triples_plain gs : Forall triple gs -> digits_and_dots (concat gs).
Proof.
  induction 1 as [|g gs Hg _ IH]; [constructor|].
  simpl. apply Forall_app. split; [|exact IH].
  destruct Hg as [x [y [z [-> [Hx [Hy Hz]]]]]].
  constructor; [now right|].
  constructor; [now left|]. constructor; [now left|].
  constructor; [now left|constructor].
Qed.

Lemma parse_with_comma w f :
  digits_and_dots w -> all_in isdecimal f -> without_dots w ++ f <> [] ->
  parse_pt_br_float (w ++ "," ++ f)
  = Ok (f64_of_decimal false (digits_value (without_dots w ++ f))
          (- Z.of_nat (length f))).
Proof.
  intros Hw Hf Hne. rewrite parse_pt_br_float_total.
  rewrite (cleaned_fraction w f Hw Hf).
  pose proof (without_dots_plain w Hw) as Hd.
  rewrite (py_float_plain (without_dots w ++ "." ++ f)
             (f64_of_decimal false (digits_value (without_dots w ++ f))
                (- Z.of_nat (length f)))).
  - reflexivity.
  - apply Forall_app. split; [now apply all_in_plain|].
    constructor; [now right | now apply all_in_plain].
  - now destruct (without_dots w).
  - now apply strtod_fraction.
Qed.

(** X15. [parse_pt_br_float] reads Brazilian notation as intended: for a
    text of digits and dots followed by a comma and digits it returns the
    double nearest to the number whose digits are those of the text, dots
    left out, with as many decimal places as there are digits after the
    comma; without a comma the digits are read as an integer.  Every
    quantity of the three shapes of [pick_quantity_from_row] is of one of
    these two forms, so none of them is read as 0.0 by the fallback. *)
Theorem Brazilian_number_value :
  (forall w f,
     digits_and_dots w -> all_in isdecimal f -> without_dots w ++ f <> [] ->
     parse_pt_br_float (w ++ "," ++ f)
     = Ok (f64_of_decimal false (digits_value (without_dots w ++ f))
             (- Z.of_nat (length f)))) /\
  (forall w,
     digits_and_dots w -> without_dots w <> [] ->
     parse_pt_br_float w
     = Ok (f64_of_decimal false (digits_value (without_dots w)) 0)) /\
  (forall k q,
     has_shape k q ->
     DIGITS q \/
     exists w f, q = w ++ "," ++ f /\ digits_and_dots w /\
                 without_dots w <> [] /\ DIGITS f).
Proof.
  split; [|split].
  - exact parse_with_comma.
  - intros w Hw Hne. rewrite parse_pt_br_float_total.
    pose proof (without_dots_plain w Hw) as Hd.
    rewrite (commas_to_dots_plain _ (all_in_plain _ Hd)).
    rewrite (py_float_plain _ _ (all_in_plain _ Hd) Hne
               (strtod_digits _ (conj Hne Hd))).
    reflexivity.
  - intros [] q H.
    + destruct H as [h [gs [f [Hh [_ [Hgs [Hf ->]]]]]]].
      right. exists (h ++ concat gs), f.
      rewrite <- app_assoc. split; [reflexivity|].
      split; [|split; [|exact Hf]].
      * apply Forall_app. split;
          [apply all_in_plain, Hh | now apply triples_plain].
      * unfold without_dots. rewrite filter_app.
        fold (without_dots h). rewrite (without_dots_digits h (proj2 Hh)).
        destruct h; [now destruct Hh|discriminate].
    + destruct H as [a [b [Ha [Hb ->]]]].
      right. exists a, b. split; [reflexivity|].
      split; [apply all_in_plain, Ha|]. split; [|exact Hb].
      rewrite (without_dots_digits a (proj2 Ha)). apply Ha.
    + left. exact H.
Qed.

Lemma Brazilian_number_value_witness :
  parse_pt_br_float "1.234,56" = Ok (f64_of_decimal false 123456 (-2)).
Proof.
  refine (proj1 Brazilian_number_value "1.234" "56" _ _ _).
  - repeat (constructor; [first [now left | now right]|]). constructor.
  - repeat (constructor; [reflexivity|]). constructor.
  - vm_compute. discriminate.
Defined.

(* ===================================================================== *)
(** * The text of a total *)
(* ===================================================================== *)

Lemma replace_char_by_text a new s :
  replace [a] new s
  = flat_map (fun c => if Ascii.eqb a c then new else [c]) s.
Proof.
  unfold replace. induction s as [|c s IH]; simpl; [reflexivity|].
  rewrite andb_true_r. destruct (Ascii.eqb a c); simpl; now rewrite IH.
Qed.

Lemma placeholder_swap s :
  ~ In "T"%char s ->
  replace "TEMP" "." (replace "." "," (replace "," "TEMP" s))
  = map swap_separators s.
Proof.
  intro H. rewrite (replace_char_by_text "," "TEMP" s).
  rewrite (replace_char_by_char "." ","). unfold replace.
  induction s as [|c s IH]; [reflexivity|].
  assert (Hc : c <> "T"%char) by (intros ->; apply H; now left).
  assert (Hs : ~ In "T"%char s) by (intro; apply H; now right).
  specialize (IH Hs). cbn [flat_map map].
  destruct (Ascii.eqb_spec "," c) as [<- | N1].
  - simpl. f_equal. exact IH.
  - cbn [app map]. destruct (Ascii.eqb_spec "." c) as [<- | N2].
    + simpl. f_equal. exact IH.
    + cbn [replace_from prefixb].
      replace (Ascii.eqb "T" c) with false
        by (symmetry; apply Ascii.eqb_neq; congruence).
      cbn [andb]. unfold swap_separators at 1.
      replace (Ascii.eqb c ",") with false
        by (symmetry; apply Ascii.eqb_neq; congruence).
      replace (Ascii.eqb c ".") with false
        by (symmetry; apply Ascii.eqb_neq; congruence).
      f_equal. exact IH.
Qed.

(** The characters of a formatted number. *)
Lemma uint_digits_raw d :
  all_in isdecimal
    (String.list_ascii_of_string (DecimalString.NilEmpty.string_of_uint d)).
Proof.
  induction d; [constructor|..]; simpl;
    (constructor; [reflexivity|assumption]).
Qed.

Lemma uint_digits d :
  all_in isdecimal
    (String.list_ascii_of_string (DecimalString.NilZero.string_of_uint d)).
Proof.
  destruct d; [repeat constructor|..]; apply uint_digits_raw.
Qed.

Lemma decimal_digits_digits n : all_in isdecimal (decimal_digits n).
Proof. apply uint_digits. Qed.

Lemma decimal_digits_nonempty n : decimal_digits n <> [].
Proof.
  unfold decimal_digits.
  assert (N : N.to_uint (Z.to_N n) <> Decimal.Nil).
  { destruct (Z.to_N n) as [|p]; [discriminate|].
    apply DecimalPos.Unsigned.to_uint_nonnil. }
  destruct (N.to_uint (Z.to_N n)); [contradiction|..]; discriminate.
Qed.

Lemma group3_rev_chars (P : ascii -> Prop) n rs :
  P ","%char -> Forall P rs -> Forall P (group3_rev n rs).
Proof.
  intros Hc H. revert n. induction H as [|c rs Hx _ IH]; intro n;
    [constructor|].
  destruct n as [|[|[|[|n]]]]; simpl; repeat constructor; auto.
Qed.

Lemma group3_chars (P : ascii -> Prop) ds :
  P ","%char -> Forall P ds -> Forall P (group3 ds).
Proof.
  intros Hc H. apply Forall_rev, group3_rev_chars; [exact Hc|].
  now apply Forall_rev.
Qed.

Lemma group3_nonempty ds : ds <> [] -> group3 ds <> [].
Proof.
  intros H E. apply H. unfold group3 in E.
  apply (f_equal (@rev ascii)) in E. rewrite rev_involutive in E.
  simpl in E. destruct (rev ds) as [|c rs] eqn:R.
  - apply (f_equal (@rev ascii)) in R. now rewrite rev_involutive in R.
  - simpl in E. discriminate E.
Qed.

Lemma two_digits_digits n : all_in isdecimal (two_digits n).
Proof.
  unfold two_digits. destruct (n <? 10)%Z.
  - constructor; [reflexivity|apply decimal_digits_digits].
  - apply decimal_digits_digits.
Qed.

Lemma number_char_digit c : isdecimal c = true -> number_char c.
Proof. now left. Qed.

Lemma format_comma_2f_chars x : Forall number_char (format_comma_2f x).
Proof.
  assert (C : forall c, In c (",.-nainf" : str) -> number_char c)
    by (intros c Hc; now right).
  assert (S : forall s, Forall number_char (sign_text s)).
  { intros []; [constructor; [apply C; simpl; tauto|]|]; constructor. }
  destruct x as [s|s| |s m e]; unfold format_comma_2f.
  - apply Forall_app. split; [apply S|].
    repeat (constructor;
            [first [left; reflexivity | apply C; simpl; tauto]|]).
    constructor.
  - apply Forall_app. split; [apply S|].
    repeat (constructor; [apply C; simpl; tauto|]). constructor.
  - repeat (constructor; [apply C; simpl; tauto|]). constructor.
  - cbv zeta. apply Forall_app. split; [apply S|].
    apply Forall_app. split.
    + apply group3_chars; [apply C; simpl; tauto|].
      apply (Forall_impl _ number_char_digit), decimal_digits_digits.
    + constructor; [apply C; simpl; tauto|].
      apply (Forall_impl _ number_char_digit), two_digits_digits.
Qed.

Lemma format_pt_br_eq x :
  format_pt_br x = map swap_separators (format_comma_2f x).
Proof.
  apply placeholder_swap. intro H.
  pose proof (format_comma_2f_chars x) as F.
  rewrite Forall_forall in F. destruct (F _ H) as [D | D].
  - discriminate D.
  - simpl in D. repeat (destruct D as [D | D]; [discriminate D|]).
    exact D.
Qed.

Lemma swap_digit c :
  isdecimal c = true ->
  swap_separators c = c /\ Ascii.eqb "." c = false.
Proof.
  destruct c as [[] [] [] [] [] [] [] []]; intro H; try discriminate H;
    split; reflexivity.
Qed.

Lemma map_swap_digits t : all_in isdecimal t -> map swap_separators t = t.
Proof.
  induction 1 as [|c t Hc _ IH]; [reflexivity|].
  simpl. now rewrite (proj1 (swap_digit c Hc)), IH.
Qed.

Lemma swapped_group_chars ds :
  all_in isdecimal ds -> digits_and_dots (map swap_separators (group3 ds)).
Proof.
  intro H. apply Forall_map.
  apply (group3_chars
           (fun c => isdecimal (swap_separators c) = true
                     \/ swap_separators c = "."%char)).
  - now right.
  - apply (Forall_impl _ (fun c Hc =>
      or_introl (eq_trans (f_equal isdecimal (proj1 (swap_digit c Hc)))
                   Hc)) H).
Qed.

Lemma format_finite s m e :
  format_pt_br (S754_finite s m e)
  = sign_text s
    ++ map swap_separators
         (group3 (decimal_digits (hundredths m e / 100)))
    ++ "," ++ two_digits (hundredths m e mod 100).
Proof.
  rewrite format_pt_br_eq. unfold format_comma_2f. cbv zeta.
  rewrite !map_app. f_equal; [now destruct s|]. f_equal.
  f_equal. apply map_swap_digits, two_digits_digits.
Qed.

Lemma two_digits_spec r :
  (0 <= r < 100)%Z ->
  length (two_digits r) = 2 /\ digits_value (two_digits r) = r.
Proof.
  intro H.
  assert (T : forallb
                (fun k => let t := two_digits (Z.of_nat k) in
                          (length t =? 2) &&
                          (digits_value t =? Z.of_nat k)%Z)
                (seq 0 100) = true) by (vm_compute; reflexivity).
  rewrite forallb_forall in T.
  assert (I : In (Z.to_nat r) (seq 0 100)) by (apply in_seq; lia).
  apply T in I. rewrite Z2Nat.id in I by lia. cbv zeta in I.
  apply andb_true_iff in I as [A B].
  split; [now apply Nat.eqb_eq | now apply Z.eqb_eq].
Qed.

(** X16. The placeholder trick of [consolidate_rows] is a clean swap:
    the text of a total is its [,.2f] rendering with every comma made a
    dot and every dot a comma, because no rendering holds a letter of
    [TEMP].  So the text of a finite total is an optional minus sign,
    digits grouped by dots, a comma and exactly two digits. *)
Theorem format_pt_br_swaps_separators :
  (forall x, format_pt_br x = map swap_separators (format_comma_2f x)) /\
  (forall s m e,
     exists g d1 d2,
       format_pt_br (S754_finite s m e)
       = sign_text s ++ g ++ "," ++ [d1; d2] /\
       g <> [] /\ digits_and_dots g /\
       isdecimal d1 = true /\ isdecimal d2 = true).
Proof.
  split; [exact format_pt_br_eq|].
  intros s m e. rewrite format_finite.
  set (n := hundredths m e).
  destruct (two_digits_spec (n mod 100)) as [L _];
    [apply Z.mod_pos_bound; lia|].
  pose proof (two_digits_digits (n mod 100)) as D.
  destruct (two_digits (n mod 100)) as [|d1 [|d2 [|? ?]]];
    try discriminate L.
  exists (map swap_separators (group3 (decimal_digits (n / 100)))), d1, d2.
  split; [reflexivity|]. split; [|split].
  - intro E. apply map_eq_nil in E.
    now apply (group3_nonempty _ (decimal_digits_nonempty (n / 100))).
  - apply swapped_group_chars, decimal_digits_digits.
  - inversion D as [|? ? H1 D']. inversion D' as [|? ? H2 _]. now split.
Qed.

Lemma digits_fold_shift t acc :
  (fold_left (fun a c => 10 * a + digit_value c) t acc
   = acc * 10 ^ Z.of_nat (length t) + digits_value t)%Z.
Proof.
  unfold digits_value. revert acc.
  induction t as [|c t IH]; intro acc; [simpl; lia|].
  cbn [fold_left length]. rewrite IH, (IH (10 * 0 + digit_value c)%Z).
  rewrite Nat2Z.inj_succ, Z.pow_succ_r by lia. ring.
Qed.

Lemma digits_value_app a b :
  (digits_value (a ++ b)
   = digits_value a * 10 ^ Z.of_nat (length b) + digits_value b)%Z.
Proof.
  unfold digits_value at 1. rewrite fold_left_app.
  apply digits_fold_shift.
Qed.

Lemma digits_value_uint d d' :
  fold_left (fun a c => 10 * a + digit_value c)%Z
    (String.list_ascii_of_string (DecimalString.NilEmpty.string_of_uint d))
    (Z.of_N (DecimalPos.Unsigned.of_lu d'))
  = Z.of_N (DecimalPos.Unsigned.of_lu (Decimal.revapp d d')).
Proof.
  revert d'. induction d; intro d'; [reflexivity|..];
    cbn [DecimalString.NilEmpty.string_of_uint
         String.list_ascii_of_string fold_left Decimal.revapp];
    rewrite <- IHd; f_equal;
    match goal with
    | |- context [digit_value ?c] =>
        let v := eval vm_compute in (digit_value c) in
        change (digit_value c) with v
    end;
    cbn [DecimalPos.Unsigned.of_lu]; lia.
Qed.

Lemma digits_value_decimal n :
  (0 <= n)%Z -> digits_value (decimal_digits n) = n.
Proof.
  intro H. unfold decimal_digits.
  assert (E : forall d,
             digits_value
               (String.list_ascii_of_string
                  (DecimalString.NilZero.string_of_uint d))
             = Z.of_N (N.of_uint d)).
  { intro d. unfold N.of_uint.
    rewrite DecimalPos.Unsigned.of_uint_alt. unfold Decimal.rev.
    rewrite <- digits_value_uint. destruct d; reflexivity. }
  rewrite E, DecimalN.Unsigned.of_to. now apply Z2N.id.
Qed.

Lemma ungroup n rs :
  all_in isdecimal rs ->
  without_dots (map swap_separators (group3_rev n rs)) = rs.
Proof.
  intro H. revert n. induction H as [|c rs Hc _ IH]; intro n;
    [reflexivity|].
  destruct (swap_digit c Hc) as [S1 S2].
  assert (K : forall t, without_dots (swap_separators c :: t)
                        = c :: without_dots t).
  { intro t. unfold without_dots. cbn [filter]. now rewrite S1, S2. }
  destruct n as [|[|[|[|n]]]]; cbn [group3_rev map]; rewrite ?K, ?IH;
    try reflexivity.
  change (without_dots (swap_separators c ::
                          map swap_separators (group3_rev 1 rs))
          = c :: rs).
  now rewrite K, IH.
Qed.

Lemma ungroup3 ds :
  all_in isdecimal ds ->
  without_dots (map swap_separators (group3 ds)) = ds.
Proof.
  intro H. unfold group3, without_dots.
  rewrite map_rev, filter_rev.
  fold (without_dots (map swap_separators (group3_rev 0 (rev ds)))).
  rewrite ungroup by now apply Forall_rev. apply rev_involutive.
Qed.

Lemma hundredths_nonneg m e : (0 <= hundredths m e)%Z.
Proof.
  unfold hundredths. destruct (0 <=? e)%Z eqn:E.
  - apply Z.leb_le in E. apply Z.mul_nonneg_nonneg; [|lia].
    apply Z.mul_nonneg_nonneg; [lia|]. now apply Z.pow_nonneg.
  - apply Z.leb_gt in E. unfold round_half_even. cbv zeta.
    assert (P : (0 < 2 ^ (- e))%Z) by (apply Z.pow_pos_nonneg; lia).
    assert (Q : (0 <= Z.pos m * 100 / 2 ^ (- e))%Z)
      by (apply Z.div_pos; lia).
    destruct (_ ?= _)%Z; [destruct (Z.even _)|..]; lia.
Qed.

(** X17. Reading back the text written for a positive total gives the
    double nearest to the total rounded to hundredths: the separators
    that [consolidate_rows] writes are the ones [parse_pt_br_float]
    reads. *)
Theorem total_text_reads_back m e :
  parse_pt_br_float (format_pt_br (S754_finite false m e))
  = Ok (f64_of_decimal false (hundredths m e) (-2)).
Proof.
  rewrite format_finite. set (n := hundredths m e).
  assert (N : (0 <= n)%Z) by apply hundredths_nonneg.
  destruct (two_digits_spec (n mod 100)) as [L V];
    [apply Z.mod_pos_bound; lia|].
  pose proof (decimal_digits_digits (n / 100)) as D.
  cbn [sign_text]. rewrite app_nil_l, parse_with_comma.
  - rewrite (ungroup3 _ D), digits_value_app, L, V.
    rewrite (digits_value_decimal (n / 100))
      by (apply Z.div_pos; lia).
    f_equal. f_equal.
    change (10 ^ Z.of_nat 2)%Z with 100%Z.
    pose proof (Z.div_mod n 100). lia.
  - now apply swapped_group_chars.
  - apply two_digits_digits.
  - rewrite (ungroup3 _ D). intro E. apply app_eq_nil in E as [E _].
    now apply (decimal_digits_nonempty (n / 100)).
Qed.

(* ===================================================================== *)
(** * Column widths *)
(* ===================================================================== *)

Lemma max_len_from col m :
  fold_left (fun m v => Nat.max m (length (cell_text v))) col m
  = Nat.max m (max_len col).
Proof.
  unfold max_len. revert m. induction col as [|v col IH]; intro m.
  - simpl. lia.
  - cbn [fold_left]. rewrite IH, (IH (Nat.max 0 _)). lia.
Qed.

Lemma max_len_cons v col :
  max_len (v :: col) = Nat.max (length (cell_text v)) (max_len col).
Proof.
  unfold max_len at 1. cbn [fold_left]. rewrite max_len_from. lia.
Qed.

Lemma max_len_bounds col :
  (forall v, In v col -> length (cell_text v) <= max_len col) /\
  (col <> [] -> exists v, In v col /\ max_len col = length (cell_text v)).
Proof.
  induction col as [|v col [IH1 IH2]].
  - split; [intros v []|intro H; now contradiction H].
  - rewrite max_len_cons. split.
    + intros x [<- | Hx]; [lia|]. specialize (IH1 x Hx). lia.
    + intros _. destruct col as [|v' col'].
      * exists v. split; [now left|]. unfold max_len. simpl. lia.
      * destruct IH2 as [x [Hx Ex]]; [discriminate|].
        destruct (Nat.le_ge_cases (max_len (v' :: col'))
                    (length (cell_text v))) as [L | L].
        -- exists v. split; [now left|lia].
        -- exists x. split; [now right|lia].
Qed.

(** X18. The column widths of [save_xlsx]: a width lies between 2 and
    40; a cell of at most 38 characters gets two characters more than its
    text; and a width below 40 is not more than is needed, it is the
    length of the longest cell of the column plus 2. *)
Theorem column_width_fits col :
  2 <= column_width col <= 40 /\
  (forall v, In v col -> length (cell_text v) <= 38 ->
             length (cell_text v) + 2 <= column_width col) /\
  (col <> [] -> column_width col < 40 ->
   exists v, In v col /\ column_width col = length (cell_text v) + 2 /\
             forall v', In v' col ->
                        length (cell_text v') <= length (cell_text v)).
Proof.
  destruct (max_len_bounds col) as [U E]. unfold column_width.
  split; [lia|]. split.
  - intros v Hv L. specialize (U v Hv). lia.
  - intros Hne W. destruct (E Hne) as [v [Hv Ev]]. exists v.
    split; [exact Hv|]. split; [lia|].
    intros v' Hv'. specialize (U v' Hv'). lia.
Qed.
